(** * szurubooru: user record helpers (server/szurubooru/util/users.py)

    A shallow embedding of [szurubooru.util.users] and of the parts of the
    Python runtime it relies on ([str.strip], [re.match], [list.index],
    truthiness), followed by the properties of the user record manager.

    Conventions.
    - A Python [str] is a list of Unicode code points ([N]).
    - The user object is mutable; an operation is a state transformer over
      the object it receives and the outside world (random source, clock),
      and it keeps the state it reached when it raises.
    - The collaborators that live in other modules ([config], [auth],
      [misc], [db]) are gathered in the record [Env].
    - The operations are first given over strings and patterns that
      compile; module [dyn] gives them over what untyped callers can
      pass ([None], a pattern that does not compile), and the two agree
      where both apply. *)

From Stdlib Require Import List NArith ZArith Bool String Ascii Lia PeanoNat.
Import ListNotations.

(* ===================================================================== *)
(** ** Python strings *)
(* ===================================================================== *)

Definition char := N.
Definition str := list char.

(** A literal: the code points of an ASCII string. *)
Definition str_of (s : string) : str :=
  List.map N_of_ascii (list_ascii_of_string s).

Fixpoint str_eqb (a b : str) : bool :=
  match a, b with
  | [], [] => true
  | x :: a', y :: b' => N.eqb x y && str_eqb a' b'
  | _, _ => false
  end.

(** Code points that [str.strip()] removes (the whitespace set of CPython 3:
    U+0009..U+000D, U+001C..U+0020, U+0085, U+00A0, U+1680, U+2000..U+200A,
    U+2028, U+2029, U+202F, U+205F, U+3000). *)
Definition is_space (c : char) : bool :=
  (((9 <=? c) && (c <=? 13)) || ((28 <=? c) && (c <=? 32)) ||
   (c =? 133) || (c =? 160) || (c =? 5760) ||
   ((8192 <=? c) && (c <=? 8202)) ||
   (c =? 8232) || (c =? 8233) || (c =? 8239) || (c =? 8287) ||
   (c =? 12288))%N.

Fixpoint lstrip (s : str) : str :=
  match s with
  | [] => []
  | c :: t => if is_space c then lstrip t else s
  end.

Definition rstrip (s : str) : str := rev (lstrip (rev s)).

(** [s.strip()] *)
Definition strip (s : str) : str := rstrip (lstrip s).

(** [s or None] for a string [s]: the empty string is falsy. *)
Definition or_None (s : str) : option str :=
  match s with
  | [] => None
  | _ => Some s
  end.

(** [x in l] for a list of strings. *)
Definition py_in (x : str) (l : list str) : bool :=
  existsb (str_eqb x) l.

(** [l.index(x)]: the first position holding a value equal to [x];
    [None] stands for the [ValueError] Python raises when there is none.
    The looked-up value may be Python's [None] (an unset column), which
    equals no string. *)
Fixpoint py_index (l : list str) (x : option str) : option nat :=
  match l with
  | [] => None
  | y :: t =>
      match x with
      | Some s =>
          if str_eqb y s then Some 0
          else option_map S (py_index t x)
      | None => None
      end
  end.

(* ===================================================================== *)
(** ** Regular expressions and [re.match] *)
(* ===================================================================== *)

(** The patterns of the configuration, as syntax trees.  [Bol] is [^],
    [Eol] is [$], [Dot] is [.], [Class false rs] is [[...]] over the listed
    inclusive ranges and [Class true rs] is [[^...]], [Ahead false r] is
    the look-ahead [(?=r)] and [Ahead true r] is [(?!r)].

    This is the pattern language the development covers.  The other
    constructs of [re] (look-behind, word boundaries, inline flags,
    back-references) are outside it: a statement that depends on the
    shape of a pattern is a statement about patterns written with the
    constructs below. *)
Inductive regex : Type :=
| Eps
| Lit (c : char)
| Dot
| Class (negated : bool) (ranges : list (char * char))
| Bol
| Eol
| Cat (r1 r2 : regex)
| Alt (r1 r2 : regex)
| Star (r : regex)
| Ahead (negated : bool) (r : regex).

(** [r{n}] and [r{0,n}], [r+], [r?] *)
Fixpoint times (n : nat) (r : regex) : regex :=
  match n with
  | 0 => Eps
  | S k => Cat r (times k r)
  end.

Fixpoint upto (n : nat) (r : regex) : regex :=
  match n with
  | 0 => Eps
  | S k => Alt (Cat r (upto k r)) Eps
  end.

Definition Plus (r : regex) : regex := Cat r (Star r).
Definition Opt (r : regex) : regex := Alt r Eps.

(** The position of the matcher in the subject string: how many code
    points lie behind it and which lie ahead. *)
Record cursor : Type := mkCursor { pos : nat; rest : str }.

Definition start (s : str) : cursor := mkCursor 0 s.

Definition in_ranges (c : char) (rs : list (char * char)) : bool :=
  existsb (fun lh => (fst lh <=? c) && (c <=? snd lh))%N rs.

(** Consume one code point if it satisfies [p]. *)
Definition eat (p : char -> bool) (c : cursor) : list cursor :=
  match rest c with
  | x :: t => if p x then [mkCursor (S (pos c)) t] else []
  | [] => []
  end.

(** Iteration of a matcher: zero rounds, or one round that moves the
    cursor followed by further rounds.  A round that consumes nothing
    adds no new end position, so it is cut; [fuel] bounds the rounds by
    the length of what is ahead. *)
Fixpoint star (step : cursor -> list cursor) (fuel : nat) (c : cursor)
  : list cursor :=
  c :: match fuel with
       | 0 => []
       | S n =>
           flat_map
             (fun c' =>
                if List.length (rest c') <? List.length (rest c)
                then star step n c' else [])
             (step c)
       end.

(** All the cursors at which a match of [r] begun at [c] can end (the
    backtracking search of the [re] module, without its preference
    order, which does not change whether a match exists). *)
Fixpoint run (r : regex) (c : cursor) : list cursor :=
  match r with
  | Eps => [c]
  | Lit a => eat (N.eqb a) c
  | Dot => eat (fun x => negb (x =? 10)%N) c
  | Class neg rs => eat (fun x => xorb neg (in_ranges x rs)) c
  | Bol => if pos c =? 0 then [c] else []
  | Eol =>
      match rest c with
      | [] => [c]
      | [x] => if (x =? 10)%N then [c] else []
      | _ => []
      end
  | Cat r1 r2 => flat_map (run r2) (run r1 c)
  | Alt r1 r2 => run r1 c ++ run r2 c
  | Star r1 => star (run r1) (S (List.length (rest c))) c
  | Ahead neg r1 =>
      match run r1 c with
      | [] => if neg then [c] else []
      | _ :: _ => if neg then [] else [c]
      end
  end.

(** Truthiness of [re.match(r, s)]: some match begins at the start of [s]. *)
Definition re_match (r : regex) (s : str) : bool :=
  match run r (start s) with
  | [] => false
  | _ :: _ => true
  end.

(** Truthiness of [re.fullmatch(r, s)]: some match covers the whole of [s]. *)
Definition re_fullmatch (r : regex) (s : str) : bool :=
  existsb (fun c => match rest c with [] => true | _ => false end)
          (run r (start s)).

(** The end positions of the matches of [r] that begin at the start of [s]. *)
Definition match_ends (r : regex) (s : str) : list nat :=
  List.map pos (run r (start s)).

(** A pattern that looks at nothing beyond what it consumes: no [$] and
    no look-ahead anywhere in it. *)
Fixpoint plain (r : regex) : bool :=
  match r with
  | Eol | Ahead _ _ => false
  | Cat r1 r2 | Alt r1 r2 => plain r1 && plain r2
  | Star r1 => plain r1
  | _ => true
  end.

(** The pattern ends with [$]. *)
Fixpoint ends_with_eol (r : regex) : bool :=
  match r with
  | Eol => true
  | Cat _ r2 => ends_with_eol r2
  | _ => false
  end.

(* ===================================================================== *)
(** ** The collaborators: [db], [errors], [config], [auth], [misc] *)
(* ===================================================================== *)

Definition datetime := Z.

Module db.

Inductive AvatarStyle : Type := AVATAR_GRAVATAR | AVATAR_MANUAL.

(** The columns of [db.User]; a column that was never assigned holds
    Python's [None]. *)
Record User : Type := mkUser {
  name : option str;
  password_hash : option str;
  password_salt : option str;
  email : option str;
  access_rank : option str;
  creation_time : option datetime;
  last_login_time : option datetime;
  avatar_style : option AvatarStyle
}.

(** [db.User()] *)
Definition new : User :=
  mkUser None None None None None None None None.

End db.

Module errors.

(** The exceptions that can leave this module.  [ValidationError] and
    [AuthError] (the authorization error) are the module's own.  The
    others are raised by the runtime: [ValueError] by [list.index],
    [re_error] ([re.error]) by [re.match] on a pattern that does not
    compile, [AttributeError] by [None.strip()], [TypeError] by [re.match]
    on a subject that is not a string. *)
Inductive exn : Type :=
| ValidationError | AuthError
| ValueError | re_error | AttributeError | TypeError.

End errors.

(** [config.config['service']] *)
Record Service : Type := mkService {
  user_name_regex : regex;
  password_regex : regex;
  default_user_rank : str;
  user_ranks : list str
}.

(** What the module receives from the rest of the program:
    the configuration, the truth value of [misc.is_valid_email] and
    [auth.get_password_hash]. *)
Record Env : Type := mkEnv {
  service : Service;
  is_valid_email : option str -> bool;
  get_password_hash : str -> str -> str
}.

(** The outside world: what [auth.create_password()] returns at its n-th
    call and what [datetime.now()] returns at its n-th call, with the
    number of calls made so far. *)
Record World : Type := mkWorld {
  rng : nat -> str;
  drawn : nat;
  clock : nat -> datetime;
  asked : nat
}.

(** Modelled from the spec: [misc.is_valid_email] is not part of the
    sources at hand.  The data model says that the email "is either null
    or passes validation" and that the empty string is treated "as absent
    (null)": the validator accepts the absent email. *)
Definition accepts_absent_email (validator : option str -> bool) : Prop :=
  validator None = true.

(* ===================================================================== *)
(** ** Operations on a mutable user *)
(* ===================================================================== *)

(** The state an operation works on: the user object it was handed and
    the world. *)
Record Machine : Type := mkMachine { self : db.User; world : World }.

Inductive outcome (A : Type) : Type :=
| Returned (a : A)
| Raised (e : errors.exn).

Arguments Returned {A} a.
Arguments Raised {A} e.

Definition Op (A : Type) : Type := Machine -> outcome A * Machine.

Definition ret {A} (a : A) : Op A := fun m => (Returned a, m).

Definition raise {A} (e : errors.exn) : Op A := fun m => (Raised e, m).

Definition bind {A B} (x : Op A) (k : A -> Op B) : Op B :=
  fun m =>
    match x m with
    | (Returned a, m') => k a m'
    | (Raised e, m') => (Raised e, m')
    end.

Declare Scope op_scope.
Delimit Scope op_scope with op.
Notation "x <- c1 ;; c2" := (bind c1 (fun x => c2))
  (at level 61, c1 at next level, right associativity) : op_scope.
Notation "c1 ;; c2" := (bind c1 (fun _ => c2))
  (at level 61, right associativity) : op_scope.

(** Assignment to the attributes of the user. *)
Definition modify (f : db.User -> db.User) : Op unit :=
  fun m => (Returned tt, mkMachine (f (self m)) (world m)).

Definition set_name (v : option str) (u : db.User) : db.User :=
  db.mkUser v (db.password_hash u) (db.password_salt u) (db.email u)
    (db.access_rank u) (db.creation_time u) (db.last_login_time u)
    (db.avatar_style u).

Definition set_password_hash (v : option str) (u : db.User) : db.User :=
  db.mkUser (db.name u) v (db.password_salt u) (db.email u)
    (db.access_rank u) (db.creation_time u) (db.last_login_time u)
    (db.avatar_style u).

Definition set_password_salt (v : option str) (u : db.User) : db.User :=
  db.mkUser (db.name u) (db.password_hash u) v (db.email u)
    (db.access_rank u) (db.creation_time u) (db.last_login_time u)
    (db.avatar_style u).

Definition set_email (v : option str) (u : db.User) : db.User :=
  db.mkUser (db.name u) (db.password_hash u) (db.password_salt u) v
    (db.access_rank u) (db.creation_time u) (db.last_login_time u)
    (db.avatar_style u).

Definition set_access_rank (v : option str) (u : db.User) : db.User :=
  db.mkUser (db.name u) (db.password_hash u) (db.password_salt u)
    (db.email u) v (db.creation_time u) (db.last_login_time u)
    (db.avatar_style u).

Definition set_creation_time (v : option datetime) (u : db.User) : db.User :=
  db.mkUser (db.name u) (db.password_hash u) (db.password_salt u)
    (db.email u) (db.access_rank u) v (db.last_login_time u)
    (db.avatar_style u).

Definition set_last_login_time (v : option datetime) (u : db.User)
  : db.User :=
  db.mkUser (db.name u) (db.password_hash u) (db.password_salt u)
    (db.email u) (db.access_rank u) (db.creation_time u) v
    (db.avatar_style u).

Definition set_avatar_style (v : option db.AvatarStyle) (u : db.User)
  : db.User :=
  db.mkUser (db.name u) (db.password_hash u) (db.password_salt u)
    (db.email u) (db.access_rank u) (db.creation_time u)
    (db.last_login_time u) v.

(** [auth.create_password()]: the next value of the random source. *)
Definition create_password : Op str :=
  fun m =>
    let w := world m in
    (Returned (rng w (drawn w)),
     mkMachine (self m) (mkWorld (rng w) (S (drawn w)) (clock w) (asked w))).

(** [datetime.now()]: the next reading of the clock. *)
Definition now : Op datetime :=
  fun m =>
    let w := world m in
    (Returned (clock w (asked w)),
     mkMachine (self m) (mkWorld (rng w) (drawn w) (clock w) (S (asked w)))).

Local Open Scope op_scope.

Section Users.

Variable env : Env.

Definition update_name (name : str) : Op unit :=
  let name := strip name in
  let name_regex := user_name_regex (service env) in
  if negb (re_match name_regex name)
  then raise errors.ValidationError
  else modify (set_name (Some name)).

(** The salt is read back from the attribute it was just assigned to;
    [salt] names that value. *)
Definition update_password (password : str) : Op unit :=
  let password_regex := password_regex (service env) in
  if negb (re_match password_regex password)
  then raise errors.ValidationError
  else
    salt <- create_password ;;
    modify (set_password_salt (Some salt)) ;;
    modify (set_password_hash
              (Some (get_password_hash env salt password))).

Definition update_email (email : str) : Op unit :=
  let email := or_None (strip email) in
  if negb (is_valid_email env email)
  then raise errors.ValidationError
  else modify (set_email email).

Definition update_rank (rank : str) (authenticated_user : db.User)
  : Op unit :=
  let rank := strip rank in
  let available_access_ranks := user_ranks (service env) in
  if negb (py_in rank available_access_ranks)
  then raise errors.ValidationError
  else
    match py_index available_access_ranks
                   (db.access_rank authenticated_user) with
    | None => raise errors.ValueError
    | Some i =>
        match py_index available_access_ranks (Some rank) with
        | None => raise errors.ValueError
        | Some j =>
            if i <? j
            then raise errors.AuthError
            else modify (set_access_rank (Some rank))
        end
    end.

Definition bump_login_time : Op unit :=
  t <- now ;;
  modify (set_last_login_time (Some t)).

Definition reset_password : Op str :=
  password <- create_password ;;
  salt <- create_password ;;
  modify (set_password_salt (Some salt)) ;;
  modify (set_password_hash
            (Some (get_password_hash env salt password))) ;;
  ret password.

(** [create_user] builds its user in a fresh object; the caller sees
    the object only when the function returns. *)
Definition create_user (name password email : str) (w : World)
  : outcome db.User * World :=
  let body : Op unit :=
    update_name name ;;
    update_password password ;;
    update_email email ;;
    modify (set_access_rank (Some (default_user_rank (service env)))) ;;
    t <- now ;;
    modify (set_creation_time (Some t)) ;;
    modify (set_avatar_style (Some db.AVATAR_GRAVATAR))
  in
  match body (mkMachine db.new w) with
  | (Returned _, m) => (Returned (self m), world m)
  | (Raised e, m) => (Raised e, world m)
  end.

End Users.

(** Running an operation on a user [u] in a world [w]. *)
Definition on {A} (u : db.User) (w : World) (op : Op A)
  : outcome A * Machine :=
  op (mkMachine u w).

(* ===================================================================== *)
(** ** The module as untyped callers reach it *)
(* ===================================================================== *)

(** The operations above take strings and patterns that compile.  Python
    checks neither: a caller can pass [None] where a string is expected,
    and the configuration can hold a pattern that [re] refuses.  The same
    functions are given here over such inputs, with the failures of the
    runtime at the places where the source meets them. *)
Module dyn.

(** What can be passed where the module expects a string. *)
Inductive pyobj : Type := PyNone | PyStr (s : str).

(** A configured pattern: text that [re] compiles, given by its syntax
    tree, or text that it refuses. *)
Inductive pattern : Type := Compiled (r : regex) | Malformed.

(** [config.config['service']] and the helpers of [auth] and [misc]. *)
Record Config : Type := mkConfig {
  user_name_regex : pattern;
  password_regex : pattern;
  default_user_rank : str;
  user_ranks : list str;
  is_valid_email : option str -> bool;
  get_password_hash : str -> str -> str
}.

Definition update_name (cfg : Config) (name : pyobj) : Op unit :=
  match name with
  | PyNone => raise errors.AttributeError
  | PyStr name =>
      let name := strip name in
      match user_name_regex cfg with
      | Malformed => raise errors.re_error
      | Compiled name_regex =>
          if negb (re_match name_regex name)
          then raise errors.ValidationError
          else modify (set_name (Some name))
      end
  end.

(** [re.match] compiles the pattern before it looks at the subject. *)
Definition update_password (cfg : Config) (password : pyobj) : Op unit :=
  match password_regex cfg, password with
  | Malformed, _ => raise errors.re_error
  | Compiled _, PyNone => raise errors.TypeError
  | Compiled password_regex, PyStr password =>
      if negb (re_match password_regex password)
      then raise errors.ValidationError
      else
        salt <- create_password ;;
        modify (set_password_salt (Some salt)) ;;
        modify (set_password_hash
                  (Some (get_password_hash cfg salt password)))
  end.

Definition update_email (cfg : Config) (email : pyobj) : Op unit :=
  match email with
  | PyNone => raise errors.AttributeError
  | PyStr email =>
      let email := or_None (strip email) in
      if negb (is_valid_email cfg email)
      then raise errors.ValidationError
      else modify (set_email email)
  end.

Definition update_rank (cfg : Config) (rank : pyobj)
           (authenticated_user : db.User) : Op unit :=
  match rank with
  | PyNone => raise errors.AttributeError
  | PyStr rank =>
      let rank := strip rank in
      let available_access_ranks := user_ranks cfg in
      if negb (py_in rank available_access_ranks)
      then raise errors.ValidationError
      else
        match py_index available_access_ranks
                       (db.access_rank authenticated_user) with
        | None => raise errors.ValueError
        | Some i =>
            match py_index available_access_ranks (Some rank) with
            | None => raise errors.ValueError
            | Some j =>
                if i <? j
                then raise errors.AuthError
                else modify (set_access_rank (Some rank))
            end
        end
  end.

Definition create_user (cfg : Config) (name password email : pyobj)
           (w : World) : outcome db.User * World :=
  let body : Op unit :=
    update_name cfg name ;;
    update_password cfg password ;;
    update_email cfg email ;;
    modify (set_access_rank (Some (default_user_rank cfg))) ;;
    t <- now ;;
    modify (set_creation_time (Some t)) ;;
    modify (set_avatar_style (Some db.AVATAR_GRAVATAR))
  in
  match body (mkMachine db.new w) with
  | (Returned _, m) => (Returned (self m), world m)
  | (Raised e, m) => (Raised e, world m)
  end.

End dyn.

(** A typed environment, as untyped callers see it. *)
Definition deploy (env : Env) : dyn.Config :=
  dyn.mkConfig (dyn.Compiled (user_name_regex (service env)))
               (dyn.Compiled (password_regex (service env)))
               (default_user_rank (service env))
               (user_ranks (service env))
               (is_valid_email env) (get_password_hash env).

(** The five operations that can fail, as calls. *)
Inductive call : Type :=
| CallCreateUser (name password email : dyn.pyobj)
| CallUpdateName (name : dyn.pyobj)
| CallUpdatePassword (password : dyn.pyobj)
| CallUpdateEmail (email : dyn.pyobj)
| CallUpdateRank (rank : dyn.pyobj) (authenticated_user : db.User).

(** The exception that escapes a call made on user [u] in world [w], if
    one does. *)
Definition escaping (cfg : dyn.Config) (c : call) (u : db.User) (w : World)
  : option errors.exn :=
  let raised {A} (o : outcome A) :=
    match o with Raised e => Some e | Returned _ => None end in
  match c with
  | CallCreateUser name password email =>
      raised (fst (dyn.create_user cfg name password email w))
  | CallUpdateName name => raised (fst (on u w (dyn.update_name cfg name)))
  | CallUpdatePassword password =>
      raised (fst (on u w (dyn.update_password cfg password)))
  | CallUpdateEmail email =>
      raised (fst (on u w (dyn.update_email cfg email)))
  | CallUpdateRank rank authenticated_user =>
      raised (fst (on u w (dyn.update_rank cfg rank authenticated_user)))
  end.

Definition is_string (x : dyn.pyobj) : Prop :=
  match x with dyn.PyStr _ => True | dyn.PyNone => False end.

(** Every argument of the call that should be a string is one. *)
Definition string_arguments (c : call) : Prop :=
  match c with
  | CallCreateUser name password email =>
      is_string name /\ is_string password /\ is_string email
  | CallUpdateName x | CallUpdatePassword x | CallUpdateEmail x
  | CallUpdateRank x _ => is_string x
  end.

(** Both configured patterns compile. *)
Definition patterns_compile (cfg : dyn.Config) : Prop :=
  exists name_regex password_regex,
    dyn.user_name_regex cfg = dyn.Compiled name_regex /\
    dyn.password_regex cfg = dyn.Compiled password_regex.

(** The acting user of a rank change holds a configured rank. *)
Definition acting_user_listed (cfg : dyn.Config) (c : call) : Prop :=
  match c with
  | CallUpdateRank _ authenticated_user =>
      exists a, db.access_rank authenticated_user = Some a /\
                In a (dyn.user_ranks cfg)
  | _ => True
  end.

(** The error kinds a call is meant to fail with. *)
Definition expected_failure (c : call) (e : errors.exn) : Prop :=
  match c with
  | CallUpdateRank _ _ =>
      e = errors.ValidationError \/ e = errors.AuthError
  | _ => e = errors.ValidationError
  end.

(* ===================================================================== *)
(** ** Lookup *)
(* ===================================================================== *)

(** The persistence session, seen through the one query this module
    makes: the rows of the user table, in the order in which
    [session.query(db.User)] yields them. *)
Definition Session := list db.User.

(** The filter [name = :name] on a row; a row without a name equals no
    string. *)
Definition name_is (name : str) (u : db.User) : bool :=
  match db.name u with
  | Some n => str_eqb n name
  | None => false
  end.

(** [session.query(db.User).filter_by(name=name).first()]: the first row
    that passes the filter, or [None]. *)
Definition get_by_name (session : Session) (name : str) : option db.User :=
  find (name_is name) session.

(* ===================================================================== *)
(** ** A sample deployment, to run the operations on concrete data *)
(* ===================================================================== *)

(** [[a-zA-Z0-9_-]] *)
Definition name_class : regex :=
  Class false [(97, 122); (65, 90); (48, 57); (95, 95); (45, 45)]%N.

(** [^[a-zA-Z0-9_-]{1,32}$] *)
Definition sample_name_regex : regex :=
  Cat Bol (Cat (Cat name_class (upto 31 name_class)) Eol).

(** [^.{5,}$] *)
Definition sample_password_regex : regex :=
  Cat Bol (Cat (Cat (times 5 Dot) (Star Dot)) Eol).

(** [^[^@]*@[^@]*\.[^@]*$] *)
Definition sample_email_regex : regex :=
  let other := Star (Class true [(64, 64)]%N) in
  Cat Bol (Cat other (Cat (Lit 64%N)
    (Cat other (Cat (Lit 46%N) (Cat other Eol))))).

Definition sample_is_valid_email (e : option str) : bool :=
  match e with
  | None => true
  | Some s => re_match sample_email_regex s
  end.

(** A stand-in for the hash: any function of the salt and the password
    will do for running the code. *)
Definition sample_hash (salt password : str) : str :=
  rev password ++ 36%N :: salt.

Definition sample_ranks : list str :=
  List.map str_of
    ["anonymous"; "regular_user"; "power_user"; "mod"; "admin"]%string.

Definition sample_service : Service :=
  mkService sample_name_regex sample_password_regex
            (str_of "regular_user") sample_ranks.

Definition sample_env : Env :=
  mkEnv sample_service sample_is_valid_email sample_hash.

(** A random source that yields a different word at each call, and a
    clock that advances by one second per reading. *)
Definition sample_world : World :=
  mkWorld (fun n => str_of "kobe42nuri" ++ [N.of_nat n + 48]%N) 0
          (fun n => 1460000000 + Z.of_nat n)%Z 0.

(** A random source that repeats itself. *)
Definition stuck_world : World :=
  mkWorld (fun _ => str_of "kobe42nuri") 0
          (fun n => 1460000000 + Z.of_nat n)%Z 0.

(** A configuration whose default rank is not one of its ranks. *)
Definition stray_service : Service :=
  mkService sample_name_regex sample_password_regex
            (str_of "member") sample_ranks.

(** A configuration whose name pattern has no end anchor: [[a-z]+]. *)
Definition loose_service : Service :=
  mkService (Plus (Class false [(97, 122)]%N))
            (Cat (times 5 Dot) (Star Dot))
            (str_of "regular_user") sample_ranks.

(** A configuration whose name pattern asks for a leading blank: [ a]. *)
Definition blank_service : Service :=
  mkService (Cat (Lit 32%N) (Lit 97%N)) sample_password_regex
            (str_of "regular_user") sample_ranks.

(** A configuration whose password pattern puts [$] in one branch
    only: [a$|b]. *)
Definition branch_service : Service :=
  mkService sample_name_regex (Alt (Cat (Lit 97%N) Eol) (Lit 98%N))
            (str_of "regular_user") sample_ranks.

(** A configuration whose password pattern ends with a look-ahead:
    [a(?!b)]. *)
Definition lookahead_service : Service :=
  mkService sample_name_regex (Cat (Lit 97%N) (Ahead true (Lit 98%N)))
            (str_of "regular_user") sample_ranks.

Definition lookahead_env : Env :=
  mkEnv lookahead_service sample_is_valid_email sample_hash.

Definition stray_env : Env :=
  mkEnv stray_service sample_is_valid_email sample_hash.

Definition loose_env : Env :=
  mkEnv loose_service sample_is_valid_email sample_hash.

Definition blank_env : Env :=
  mkEnv blank_service sample_is_valid_email sample_hash.

Definition branch_env : Env :=
  mkEnv branch_service sample_is_valid_email sample_hash.

(** The sample deployment with a name pattern that does not compile. *)
Definition broken_config : dyn.Config :=
  dyn.mkConfig dyn.Malformed (dyn.Compiled sample_password_regex)
               (str_of "regular_user") sample_ranks
               sample_is_valid_email sample_hash.

Definition alice : db.User :=
  db.mkUser (Some (str_of "alice"))
            (Some (sample_hash (str_of "kobe42nuri") (str_of "ValidP@ss1")))
            (Some (str_of "kobe42nuri")) (Some (str_of "a@example.com"))
            (Some (str_of "regular_user")) (Some 1450000000%Z) None
            (Some db.AVATAR_GRAVATAR).

Definition admin : db.User :=
  db.mkUser (Some (str_of "root")) (Some (str_of "x")) (Some (str_of "y"))
            None (Some (str_of "admin")) (Some 1440000000%Z) None
            (Some db.AVATAR_GRAVATAR).

(** An acting user whose rank is not in the configured list. *)
Definition stranger : db.User :=
  set_access_rank (Some (str_of "owner")) admin.

(* ===================================================================== *)
(** ** Vocabulary of the properties *)
(* ===================================================================== *)

(** The operations of the module that work on a user handed to them. *)
Inductive operation : Type :=
| UpdateName (name : str)
| UpdatePassword (password : str)
| UpdateEmail (email : str)
| UpdateRank (rank : str) (authenticated_user : db.User)
| BumpLoginTime
| ResetPassword.

(** Calling an operation, its return value dropped. *)
Definition exec (env : Env) (o : operation) : Op unit :=
  match o with
  | UpdateName name => update_name env name
  | UpdatePassword password => update_password env password
  | UpdateEmail email => update_email env email
  | UpdateRank rank authenticated_user =>
      update_rank env rank authenticated_user
  | BumpLoginTime => bump_login_time
  | ResetPassword => (_ <- reset_password env ;; ret tt)
  end.

Inductive field : Type :=
| f_name | f_password_hash | f_password_salt | f_email | f_access_rank
| f_creation_time | f_last_login_time | f_avatar_style.

(** Two users hold the same value in a field. *)
Definition same_at (f : field) (u u' : db.User) : Prop :=
  match f with
  | f_name => db.name u' = db.name u
  | f_password_hash => db.password_hash u' = db.password_hash u
  | f_password_salt => db.password_salt u' = db.password_salt u
  | f_email => db.email u' = db.email u
  | f_access_rank => db.access_rank u' = db.access_rank u
  | f_creation_time => db.creation_time u' = db.creation_time u
  | f_last_login_time => db.last_login_time u' = db.last_login_time u
  | f_avatar_style => db.avatar_style u' = db.avatar_style u
  end.

(** The fields an operation is meant to write. *)
Definition designated (o : operation) : list field :=
  match o with
  | UpdateName _ => [f_name]
  | UpdatePassword _ => [f_password_salt; f_password_hash]
  | UpdateEmail _ => [f_email]
  | UpdateRank _ _ => [f_access_rank]
  | BumpLoginTime => [f_last_login_time]
  | ResetPassword => [f_password_salt; f_password_hash]
  end.

(** The access rank of a user is one of the configured ranks. *)
Definition rank_listed (env : Env) (u : db.User) : Prop :=
  exists a, db.access_rank u = Some a /\ In a (user_ranks (service env)).

(** A string is the value of one of the text fields of a user. *)
Definition stored_in (s : str) (u : db.User) : Prop :=
  db.name u = Some s \/ db.password_hash u = Some s \/
  db.password_salt u = Some s \/ db.email u = Some s \/
  db.access_rank u = Some s.

(** The credential pair of a user. *)
Definition credentials (u : db.User) : option str * option str :=
  (db.password_salt u, db.password_hash u).

(** The user an operation leaves behind. *)
Definition user_after {A} (r : outcome A * Machine) : db.User :=
  self (snd r).

(** The pattern with the [$] that closes it taken off: [r$] gives [r].
    [None] when the pattern does not end with [$]. *)
Fixpoint without_final_eol (r : regex) : option regex :=
  match r with
  | Eol => Some Eps
  | Cat a b => option_map (Cat a) (without_final_eol b)
  | _ => None
  end.

(** A string that [strip] leaves as it is. *)
Definition trimmed (s : str) : Prop := strip s = s.

(** The position of a user's rank in the configured list. *)
Definition rank_position (env : Env) (u : db.User) : option nat :=
  py_index (user_ranks (service env)) (db.access_rank u).

(** The same cursor in a subject string that goes on with [q]. *)
Definition ext (q : str) (c : cursor) : cursor :=
  mkCursor (pos c) (rest c ++ q).

(* ===================================================================== *)
(** * Properties *)
(* ===================================================================== *)

(** ** Strings and lists *)

Lemma str_eqb_eq (a b : str) : str_eqb a b = true <-> a = b.
Proof.
  revert b; induction a as [|x a IH]; intros [|y b]; simpl;
    try (split; [discriminate | discriminate]); try tauto.
  rewrite andb_true_iff, N.eqb_eq, IH.
  split; [intros [-> ->]; reflexivity | intros E; inversion E; auto].
Qed.

Lemma str_eqb_refl (a : str) : str_eqb a a = true.
Proof. apply str_eqb_eq; reflexivity. Qed.

Lemma py_in_In (x : str) (l : list str) : py_in x l = true <-> In x l.
Proof.
  unfold py_in. rewrite existsb_exists. split.
  - intros (y & Hy & E). apply str_eqb_eq in E. subst; assumption.
  - intros H. exists x. split; [assumption | apply str_eqb_refl].
Qed.

Lemma py_index_None (l : list str) : py_index l None = None.
Proof. destruct l; reflexivity. Qed.

(** [l.index(x)] is the first position of [x] in [l]. *)
Lemma py_index_first (l : list str) (x : str) (i : nat) :
  py_index l (Some x) = Some i ->
  nth_error l i = Some x /\ forall k, k < i -> nth_error l k <> Some x.
Proof.
  revert i; induction l as [|y l IH]; intros i; simpl; [discriminate|].
  destruct (str_eqb y x) eqn:E.
  - intros [= <-]. apply str_eqb_eq in E. subst. split; [reflexivity|].
    intros k Hk; lia.
  - destruct (py_index l (Some x)) as [j|]; simpl; [|discriminate].
    intros [= <-]. destruct (IH j eq_refl) as [Hn Hf]. split; [exact Hn|].
    intros [|k] Hk; simpl.
    + intros [= ->]. rewrite str_eqb_refl in E. discriminate.
    + apply Hf. lia.
Qed.

(** [l.index(x)] succeeds exactly on the members of [l]. *)
Lemma py_index_In (l : list str) (x : str) :
  In x l <-> exists i, py_index l (Some x) = Some i.
Proof.
  induction l as [|y l IH]; simpl.
  - split; [tauto | intros [i H]; discriminate].
  - destruct (str_eqb y x) eqn:E.
    + apply str_eqb_eq in E. split; [eauto | auto].
    + split.
      * intros [->|H]; [rewrite str_eqb_refl in E; discriminate|].
        apply IH in H. destruct H as [i ->]. simpl; eauto.
      * intros [i H]. right. apply IH.
        destruct (py_index l (Some x)); [eauto | discriminate].
Qed.

Lemma lstrip_spaces (s : str) : forallb is_space s = true -> lstrip s = [].
Proof.
  induction s as [|c s IH]; simpl; [reflexivity|].
  rewrite andb_true_iff. intros [-> H]. auto.
Qed.

(** A string of whitespace strips to the empty string. *)
Lemma strip_spaces (s : str) : forallb is_space s = true -> strip s = [].
Proof.
  intros H. unfold strip, rstrip. rewrite (lstrip_spaces s H). reflexivity.
Qed.

Lemma lstrip_keeps (c : char) (s : str) :
  is_space c = false -> lstrip (c :: s) = c :: s.
Proof. intros H; simpl; rewrite H; reflexivity. Qed.

(** ** The matcher *)

Lemma eat_advances (p : char -> bool) (c c' : cursor) :
  In c' (eat p c) ->
  exists x, rest c = x :: rest c' /\ pos c' = S (pos c) /\ p x = true.
Proof.
  unfold eat. destruct (rest c) as [|x t]; simpl; [tauto|].
  destruct (p x) eqn:E; simpl; [|tauto].
  intros [<-|[]]. exists x. auto.
Qed.

Lemma star_unfold (step : cursor -> list cursor) (n : nat) (c c' : cursor) :
  In c' (star step (S n) c) <->
  c' = c \/
  exists c1, In c1 (step c) /\
             List.length (rest c1) < List.length (rest c) /\
             In c' (star step n c1).
Proof.
  simpl. rewrite in_flat_map. split.
  - intros [->|(c1 & H1 & H2)]; [auto|]. right. exists c1.
    destruct (Nat.ltb_spec (List.length (rest c1)) (List.length (rest c)));
      [auto | destruct H2].
  - intros [->|(c1 & H1 & Hlt & H2)]; [auto|]. right. exists c1.
    split; [assumption|].
    apply Nat.ltb_lt in Hlt. rewrite Hlt. assumption.
Qed.

Lemma star_base (step : cursor -> list cursor) (c c' : cursor) :
  In c' (star step 0 c) <-> c' = c.
Proof. simpl. split; [intros [->|[]]; reflexivity | auto]. Qed.

(** Every end cursor lies ahead of the cursor the matcher began at, by
    the code points the match consumed. *)
Lemma star_advances (step : cursor -> list cursor) :
  (forall c c', In c' (step c) ->
     exists mid, rest c = mid ++ rest c' /\
                 pos c' = pos c + List.length mid) ->
  forall n c c', In c' (star step n c) ->
     exists mid, rest c = mid ++ rest c' /\
                 pos c' = pos c + List.length mid.
Proof.
  intros Hstep n. induction n as [|n IH]; intros c c'.
  - rewrite star_base. intros ->. exists []. simpl. auto.
  - rewrite star_unfold. intros [->|(c1 & H1 & _ & H2)].
    + exists []. simpl. auto.
    + destruct (Hstep _ _ H1) as (m1 & E1 & P1).
      destruct (IH _ _ H2) as (m2 & E2 & P2).
      exists (m1 ++ m2). rewrite E1, E2, P2, P1, <- app_assoc, length_app.
      split; [reflexivity | lia].
Qed.

Lemma run_advances (r : regex) (c c' : cursor) :
  In c' (run r c) ->
  exists mid, rest c = mid ++ rest c' /\ pos c' = pos c + List.length mid.
Proof.
  revert c c'.
  induction r as [|a| |neg rs| | |r1 IH1 r2 IH2|r1 IH1 r2 IH2|r1 IH1|ng r0 IH0];
    intros c c'; simpl.
  - intros [<-|[]]. exists []. simpl. auto.
  - intros H. apply eat_advances in H. destruct H as (x & E & P & _).
    exists [x]. simpl. split; [assumption | lia].
  - intros H. apply eat_advances in H. destruct H as (x & E & P & _).
    exists [x]. simpl. split; [assumption | lia].
  - intros H. apply eat_advances in H. destruct H as (x & E & P & _).
    exists [x]. simpl. split; [assumption | lia].
  - destruct (pos c =? 0); simpl; [|tauto].
    intros [<-|[]]. exists []. simpl. auto.
  - destruct (rest c) as [|x [|y t]] eqn:E; simpl; try tauto.
    + intros [<-|[]]. exists []. simpl. auto.
    + destruct (x =? 10)%N; simpl; [|tauto].
      intros [<-|[]]. exists []. simpl. auto.
  - rewrite in_flat_map. intros (c1 & H1 & H2).
    destruct (IH1 _ _ H1) as (m1 & E1 & P1).
    destruct (IH2 _ _ H2) as (m2 & E2 & P2).
    exists (m1 ++ m2). rewrite E1, E2, P2, P1, <- app_assoc, length_app.
    split; [reflexivity | lia].
  - rewrite in_app_iff. intros [H|H]; eauto.
  - intros H.
    exact (star_advances (run r1) IH1 (S (List.length (rest c))) c c' H).
  - destruct (run r0 c), ng; simpl; try tauto;
      intros [<-|[]]; exists []; simpl; auto.
Qed.

(** [re.match] succeeds exactly when the pattern matches some prefix of
    the string where it stands. *)
Lemma re_match_ends (r : regex) (s : str) :
  re_match r s = true <-> exists k, In k (match_ends r s).
Proof.
  unfold re_match, match_ends.
  destruct (run r (start s)) as [|c l]; simpl.
  - split; [discriminate | intros [k []]].
  - split; [eauto | reflexivity].
Qed.

Lemma match_ends_bound (r : regex) (s : str) (k : nat) :
  In k (match_ends r s) -> k <= List.length s.
Proof.
  unfold match_ends. rewrite in_map_iff. intros (c & <- & H).
  apply run_advances in H. destruct H as (mid & E & P).
  simpl in E, P. rewrite E, P, length_app. lia.
Qed.

(** *** Matches survive an extension of the subject string *)

Lemma eat_ext (p : char -> bool) (q : str) (c c' : cursor) :
  In c' (eat p c) -> In (ext q c') (eat p (ext q c)).
Proof.
  unfold eat, ext. destruct (rest c) as [|x t]; simpl; [tauto|].
  destruct (p x); simpl; [|tauto].
  intros [<-|[]]. left. reflexivity.
Qed.

Lemma star_ext (step : cursor -> list cursor) (q : str) :
  (forall c c', In c' (step c) -> In (ext q c') (step (ext q c))) ->
  forall n m c c',
    List.length (rest c) < n ->
    List.length (rest c) + List.length q < m ->
    In c' (star step n c) -> In (ext q c') (star step m (ext q c)).
Proof.
  intros Hstep n. induction n as [|n IH]; intros m c c' Hn Hm; [lia|].
  destruct m as [|m]; [lia|].
  rewrite !star_unfold. intros [->|(c1 & H1 & Hlt & H2)]; [auto|].
  right. exists (ext q c1). split; [auto|]. split.
  - simpl. rewrite !length_app. lia.
  - apply IH; [lia | lia | assumption].
Qed.

Lemma run_ext (r : regex) (q : str) :
  plain r = true ->
  forall c c', In c' (run r c) -> In (ext q c') (run r (ext q c)).
Proof.
  induction r as [|a| |neg rs| | |r1 IH1 r2 IH2|r1 IH1 r2 IH2|r1 IH1|ng r0 IH0];
    simpl; intros Hfree c c'.
  - intros [<-|[]]. left. reflexivity.
  - apply eat_ext.
  - apply eat_ext.
  - apply eat_ext.
  - destruct (pos c =? 0); simpl; [|tauto].
    intros [<-|[]]. left. reflexivity.
  - discriminate.
  - apply andb_true_iff in Hfree. destruct Hfree as [F1 F2].
    rewrite !in_flat_map. intros (c1 & H1 & H2).
    exists (ext q c1). split; [apply IH1 | apply IH2]; assumption.
  - apply andb_true_iff in Hfree. destruct Hfree as [F1 F2].
    rewrite !in_app_iff. intros [H|H]; [left; apply IH1 | right; apply IH2];
      assumption.
  - intros H.
    assert (Hm : List.length (rest c) + List.length q
                 < S (List.length (rest (ext q c)))).
    { simpl. rewrite length_app. lia. }
    exact (star_ext (run r1) q (IH1 Hfree) (S (List.length (rest c)))
             (S (List.length (rest (ext q c)))) c c'
             (Nat.lt_succ_diag_r _) Hm H).
  - discriminate.
Qed.

(** A plain pattern that matches [p] as a whole lets [re.match]
    succeed on every string that begins with [p]. *)
Lemma re_match_prefix (r : regex) (p q : str) :
  plain r = true -> re_fullmatch r p = true -> re_match r (p ++ q) = true.
Proof.
  intros Hfree Hfull. unfold re_fullmatch in Hfull.
  apply existsb_exists in Hfull. destruct Hfull as (c & Hc & _).
  apply (run_ext r q Hfree) in Hc.
  unfold re_match. change (start (p ++ q)) with (ext q (start p)).
  destruct (run r (ext q (start p))); [destruct Hc | reflexivity].
Qed.

(** ** What each operation computes *)

Section Equations.

Variable env : Env.
Variables (u : db.User) (w : World).

Lemma update_name_eq (name : str) :
  on u w (update_name env name) =
  if re_match (user_name_regex (service env)) (strip name)
  then (Returned tt, mkMachine (set_name (Some (strip name)) u) w)
  else (Raised errors.ValidationError, mkMachine u w).
Proof.
  unfold on, update_name.
  destruct (re_match _ _); reflexivity.
Qed.

Lemma update_password_eq (password : str) :
  on u w (update_password env password) =
  if re_match (password_regex (service env)) password
  then
    let salt := rng w (drawn w) in
    (Returned tt,
     mkMachine
       (set_password_hash (Some (get_password_hash env salt password))
          (set_password_salt (Some salt) u))
       (mkWorld (rng w) (S (drawn w)) (clock w) (asked w)))
  else (Raised errors.ValidationError, mkMachine u w).
Proof.
  unfold on, update_password.
  destruct (re_match _ _); reflexivity.
Qed.

Lemma update_email_eq (email : str) :
  on u w (update_email env email) =
  if is_valid_email env (or_None (strip email))
  then (Returned tt, mkMachine (set_email (or_None (strip email)) u) w)
  else (Raised errors.ValidationError, mkMachine u w).
Proof.
  unfold on, update_email.
  destruct (is_valid_email _ _); reflexivity.
Qed.

Lemma update_rank_eq (rank : str) (actor : db.User) :
  on u w (update_rank env rank actor) =
  let ranks := user_ranks (service env) in
  if py_in (strip rank) ranks
  then
    match py_index ranks (db.access_rank actor),
          py_index ranks (Some (strip rank)) with
    | Some i, Some j =>
        if i <? j
        then (Raised errors.AuthError, mkMachine u w)
        else (Returned tt,
              mkMachine (set_access_rank (Some (strip rank)) u) w)
    | _, _ => (Raised errors.ValueError, mkMachine u w)
    end
  else (Raised errors.ValidationError, mkMachine u w).
Proof.
  unfold on, update_rank. simpl.
  destruct (py_in _ _); simpl; [|reflexivity].
  destruct (py_index _ (db.access_rank actor)); [|reflexivity].
  destruct (py_index _ (Some (strip rank))); [|reflexivity].
  destruct (_ <? _); reflexivity.
Qed.

Lemma bump_login_time_eq :
  on u w bump_login_time =
  (Returned tt,
   mkMachine (set_last_login_time (Some (clock w (asked w))) u)
             (mkWorld (rng w) (drawn w) (clock w) (S (asked w)))).
Proof. reflexivity. Qed.

Lemma reset_password_eq :
  on u w (reset_password env) =
  let password := rng w (drawn w) in
  let salt := rng w (S (drawn w)) in
  (Returned password,
   mkMachine
     (set_password_hash (Some (get_password_hash env salt password))
        (set_password_salt (Some salt) u))
     (mkWorld (rng w) (S (S (drawn w))) (clock w) (asked w))).
Proof. reflexivity. Qed.

End Equations.

(** An operation that raises has not touched the user or the world. *)
Lemma raised_untouched (env : Env) (o : operation) (u : db.User) (w : World)
      (e : errors.exn) :
  fst (on u w (exec env o)) = Raised e ->
  snd (on u w (exec env o)) = mkMachine u w.
Proof.
  destruct o as [name|password|email|rank actor| |]; simpl.
  - rewrite update_name_eq. destruct (re_match _ _); [discriminate | auto].
  - rewrite update_password_eq.
    destruct (re_match _ _); [discriminate | auto].
  - rewrite update_email_eq.
    destruct (is_valid_email _ _); [discriminate | auto].
  - rewrite update_rank_eq. simpl.
    destruct (py_in _ _); [|auto].
    destruct (py_index _ (db.access_rank actor)); [|auto].
    destruct (py_index _ (Some (strip rank))); [|auto].
    destruct (_ <? _); [auto | discriminate].
  - discriminate.
  - discriminate.
Qed.

(** Closes [rank_listed env u] on concrete data, given the rank. *)
Ltac listed_as a :=
  exists (str_of a); split; [reflexivity | apply py_in_In; reflexivity].

(** ** Rank changes *)

(** C1, as stated, fails: an acting user whose rank is not one of the
    configured ranks asks for the configured rank [admin]; the rank is a
    member of the list, yet the call neither raises the authorization
    error nor stores the rank: [list.index] raises [ValueError] and the
    user keeps the rank it had. *)
Lemma update_rank_unlisted_actor :
  In (strip (str_of "admin")) (user_ranks (service sample_env)) /\
  py_index (user_ranks (service sample_env)) (db.access_rank stranger)
    = None /\
  on alice sample_world (update_rank sample_env (str_of "admin") stranger)
    = (Raised errors.ValueError, mkMachine alice sample_world).
Proof.
  split; [apply py_in_In; reflexivity|].
  split; reflexivity.
Qed.

(** C1 (amended): when the acting user's access rank is one of the
    configured ranks, [update_rank] trims the rank; it raises
    [ValidationError] if and only if the trimmed rank is not in the
    configured list; otherwise both ranks have a position in the list, it
    raises the authorization error if and only if the acting user's
    position is strictly lower than the requested one, and otherwise (the
    requested position is at or below the acting user's) it returns with
    the user's [access_rank] set to the trimmed rank. *)
Theorem update_rank_decides (env : Env) (u : db.User) (w : World)
        (rank : str) (actor : db.User) :
  rank_listed env actor ->
  let ranks := user_ranks (service env) in
  let r := strip rank in
  let res := on u w (update_rank env rank actor) in
  (fst res = Raised errors.ValidationError <-> ~ In r ranks) /\
  (In r ranks ->
   exists i j,
     py_index ranks (db.access_rank actor) = Some i /\
     py_index ranks (Some r) = Some j /\
     (fst res = Raised errors.AuthError <-> i < j) /\
     (j <= i ->
      res = (Returned tt, mkMachine (set_access_rank (Some r) u) w))).
Proof.
  intros (a & Ea & Ha) ranks r res.
  apply py_index_In in Ha. destruct Ha as [i Hi].
  subst res. rewrite update_rank_eq. fold ranks. fold r. cbv zeta.
  rewrite Ea. fold ranks in Hi. rewrite Hi.
  destruct (py_in r ranks) eqn:Hin.
  - apply py_in_In in Hin. pose proof Hin as Hj.
    apply py_index_In in Hj. destruct Hj as [j Hj]. rewrite Hj.
    split.
    + split; [|tauto].
      destruct (i <? j); discriminate.
    + intros _. exists i, j. split; [reflexivity|]. split; [reflexivity|].
      destruct (Nat.ltb_spec i j); simpl; split.
      * tauto.
      * lia.
      * split; [discriminate | lia].
      * reflexivity.
  - assert (Hout : ~ In r ranks).
    { intros H. apply py_in_In in H. congruence. }
    split; [tauto | tauto].
Qed.

Lemma update_rank_decides_witness :
  rank_listed sample_env admin /\
  (fst (on alice sample_world
          (update_rank sample_env (str_of " boss ") admin))
   = Raised errors.ValidationError <->
   ~ In (strip (str_of " boss ")) (user_ranks (service sample_env))).
Proof.
  assert (H : rank_listed sample_env admin) by listed_as "admin"%string.
  split.
  - exact H.
  - exact (proj1 (update_rank_decides sample_env alice sample_world
                    (str_of " boss ") admin H)).
Defined.

(** ** Creation *)

Lemma create_user_eq (env : Env) (name password email : str) (w : World) :
  create_user env name password email w =
  if re_match (user_name_regex (service env)) (strip name)
  then
    if re_match (password_regex (service env)) password
    then
      let salt := rng w (drawn w) in
      let w1 := mkWorld (rng w) (S (drawn w)) (clock w) (asked w) in
      if is_valid_email env (or_None (strip email))
      then
        (Returned
           (db.mkUser (Some (strip name))
              (Some (get_password_hash env salt password)) (Some salt)
              (or_None (strip email))
              (Some (default_user_rank (service env)))
              (Some (clock w (asked w))) None (Some db.AVATAR_GRAVATAR)),
         mkWorld (rng w) (S (drawn w)) (clock w) (S (asked w)))
      else (Raised errors.ValidationError, w1)
    else (Raised errors.ValidationError, w)
  else (Raised errors.ValidationError, w).
Proof.
  unfold create_user, bind, update_name, update_password, update_email.
  destruct (re_match (user_name_regex _) _); simpl;
    [|destruct w; reflexivity].
  destruct (re_match (password_regex _) _); simpl;
    [|destruct w; reflexivity].
  destruct (is_valid_email _ _); reflexivity.
Qed.

(** ** Failures *)

(** On strings and patterns that compile, the untyped operations are the
    typed ones. *)
Lemma dyn_typed (env : Env) :
  (forall s, dyn.update_name (deploy env) (dyn.PyStr s) = update_name env s) /\
  (forall s, dyn.update_password (deploy env) (dyn.PyStr s)
             = update_password env s) /\
  (forall s, dyn.update_email (deploy env) (dyn.PyStr s)
             = update_email env s) /\
  (forall s actor, dyn.update_rank (deploy env) (dyn.PyStr s) actor
                   = update_rank env s actor) /\
  (forall n p e w,
     dyn.create_user (deploy env) (dyn.PyStr n) (dyn.PyStr p) (dyn.PyStr e) w
     = create_user env n p e w).
Proof. repeat split. Qed.

Lemma patterns_compile_deploy (cfg : dyn.Config) :
  patterns_compile cfg -> exists env, cfg = deploy env.
Proof.
  destruct cfg as [pn pp d l v h]. intros (rn & rp & Hn & Hp).
  simpl in Hn, Hp. subst.
  exists (mkEnv (mkService rn rp d l) v h). reflexivity.
Qed.

(** What the typed operations can raise. *)
Lemma typed_failures (env : Env) (u : db.User) (w : World)
      (e : errors.exn) :
  (forall n p m, fst (create_user env n p m w) = Raised e ->
                 e = errors.ValidationError) /\
  (forall n, fst (on u w (update_name env n)) = Raised e ->
             e = errors.ValidationError) /\
  (forall p, fst (on u w (update_password env p)) = Raised e ->
             e = errors.ValidationError) /\
  (forall m, fst (on u w (update_email env m)) = Raised e ->
             e = errors.ValidationError) /\
  (forall rank actor,
     rank_listed env actor ->
     fst (on u w (update_rank env rank actor)) = Raised e ->
     e = errors.ValidationError \/ e = errors.AuthError).
Proof.
  split; [|split; [|split; [|split]]].
  - intros n p m. rewrite create_user_eq.
    destruct (re_match (user_name_regex _) _);
      [|simpl; congruence].
    destruct (re_match (password_regex _) _);
      [|simpl; congruence].
    cbv zeta. destruct (is_valid_email _ _); simpl; congruence.
  - intros n. rewrite update_name_eq.
    destruct (re_match _ _); simpl; [discriminate | congruence].
  - intros p. rewrite update_password_eq.
    destruct (re_match _ _); simpl; [discriminate | congruence].
  - intros m. rewrite update_email_eq.
    destruct (is_valid_email _ _); simpl; [discriminate | congruence].
  - intros rank actor (a & Ea & Ha).
    apply py_index_In in Ha. destruct Ha as [i Hi].
    rewrite update_rank_eq. cbv zeta. rewrite Ea, Hi.
    destruct (py_in _ _) eqn:Hin; simpl; [|intros [= <-]; auto].
    apply py_in_In, py_index_In in Hin. destruct Hin as [j ->].
    destruct (i <? j); simpl; [intros [= <-]; auto | discriminate].
Qed.

(** C2, as stated, fails: exceptions of other kinds escape.  An acting
    user whose rank is not configured makes [update_rank] raise the
    built-in [ValueError]; a configured pattern that does not compile
    makes [update_name] raise [re.error]; [None] passed as the name makes
    [update_name] (and so [create_user]) raise [AttributeError]; [None]
    passed as the password makes [update_password] raise [TypeError]. *)
Lemma other_exceptions_escape :
  escaping (deploy sample_env)
           (CallUpdateRank (dyn.PyStr (str_of "mod")) stranger)
           alice sample_world = Some errors.ValueError /\
  escaping broken_config (CallUpdateName (dyn.PyStr (str_of "alice")))
           alice sample_world = Some errors.re_error /\
  escaping (deploy sample_env) (CallUpdateName dyn.PyNone)
           alice sample_world = Some errors.AttributeError /\
  escaping (deploy sample_env)
           (CallCreateUser dyn.PyNone (dyn.PyStr (str_of "ValidP@ss1"))
                           (dyn.PyStr (str_of "a@example.com")))
           alice sample_world = Some errors.AttributeError /\
  escaping (deploy sample_env) (CallUpdatePassword dyn.PyNone)
           alice sample_world = Some errors.TypeError.
Proof. repeat split. Qed.

(** C2 (amended): when the name, password, email and rank arguments are
    strings, the two configured patterns compile and, for [update_rank],
    the acting user's access rank is one of the configured ranks, every
    failure of [create_user], [update_name], [update_password] and
    [update_email] is a [ValidationError] and every failure of
    [update_rank] is a [ValidationError] or the authorization error: no
    exception of another kind escapes. *)
Theorem failures_are_validation_or_authorization
        (cfg : dyn.Config) (c : call) (u : db.User) (w : World)
        (e : errors.exn) :
  string_arguments c ->
  patterns_compile cfg ->
  acting_user_listed cfg c ->
  escaping cfg c u w = Some e ->
  expected_failure c e.
Proof.
  intros Hstr Hpat Hact.
  destruct (patterns_compile_deploy cfg Hpat) as [env ->].
  destruct (dyn_typed env) as (Tn & Tp & Tm & Tr & Tc).
  destruct (typed_failures env u w e) as (Fc & Fn & Fp & Fm & Fr).
  destruct c as [n p m|n|p|m|rank actor]; simpl in Hstr;
    unfold escaping; cbv beta iota zeta.
  - destruct n as [|n], p as [|p], m as [|m]; simpl in Hstr; try tauto.
    rewrite Tc. specialize (Fc n p m).
    destruct (fst (create_user env n p m w)); [discriminate|].
    intros [= ->]. apply Fc. reflexivity.
  - destruct n as [|n]; [destruct Hstr|]. rewrite Tn. specialize (Fn n).
    destruct (fst (on u w (update_name env n))); [discriminate|].
    intros [= ->]. apply Fn. reflexivity.
  - destruct p as [|p]; [destruct Hstr|]. rewrite Tp. specialize (Fp p).
    destruct (fst (on u w (update_password env p))); [discriminate|].
    intros [= ->]. apply Fp. reflexivity.
  - destruct m as [|m]; [destruct Hstr|]. rewrite Tm. specialize (Fm m).
    destruct (fst (on u w (update_email env m))); [discriminate|].
    intros [= ->]. apply Fm. reflexivity.
  - destruct rank as [|rank]; [destruct Hstr|]. rewrite Tr.
    specialize (Fr rank actor Hact).
    destruct (fst (on u w (update_rank env rank actor))); [discriminate|].
    intros [= ->]. apply Fr. reflexivity.
Qed.

Lemma failures_are_validation_or_authorization_witness :
  string_arguments (CallUpdateRank (dyn.PyStr (str_of "admin")) alice) /\
  patterns_compile (deploy sample_env) /\
  acting_user_listed (deploy sample_env)
    (CallUpdateRank (dyn.PyStr (str_of "admin")) alice) /\
  escaping (deploy sample_env)
    (CallUpdateRank (dyn.PyStr (str_of "admin")) alice) admin sample_world
    = Some errors.AuthError /\
  expected_failure (CallUpdateRank (dyn.PyStr (str_of "admin")) alice)
    errors.AuthError.
Proof.
  assert (Hs : string_arguments
                 (CallUpdateRank (dyn.PyStr (str_of "admin")) alice))
    by exact I.
  assert (Hp : patterns_compile (deploy sample_env))
    by (eexists; eexists; split; reflexivity).
  assert (Ha : acting_user_listed (deploy sample_env)
                 (CallUpdateRank (dyn.PyStr (str_of "admin")) alice))
    by listed_as "regular_user"%string.
  split; [exact Hs|]. split; [exact Hp|]. split; [exact Ha|].
  split; [reflexivity|].
  exact (failures_are_validation_or_authorization (deploy sample_env)
           (CallUpdateRank (dyn.PyStr (str_of "admin")) alice)
           admin sample_world errors.AuthError Hs Hp Ha eq_refl).
Defined.

(** C5: a name whose trimmed form the configured name pattern does not
    match makes [update_name] raise [ValidationError], and the user (with
    the world) is as it was before the call. *)
Theorem update_name_rejects (env : Env) (u : db.User) (w : World)
        (name : str) :
  re_match (user_name_regex (service env)) (strip name) = false ->
  on u w (update_name env name)
  = (Raised errors.ValidationError, mkMachine u w).
Proof.
  intros H. rewrite update_name_eq, H. reflexivity.
Qed.

Lemma update_name_rejects_witness :
  re_match (user_name_regex (service sample_env))
           (strip (str_of " al ice ")) = false /\
  on alice sample_world (update_name sample_env (str_of " al ice "))
  = (Raised errors.ValidationError, mkMachine alice sample_world).
Proof.
  split.
  - reflexivity.
  - apply (update_name_rejects sample_env alice sample_world
             (str_of " al ice ")). reflexivity.
Defined.

(** C6: when [update_name], [update_password], [update_email] or
    [update_rank] (or any other operation on a user) raises, whatever the
    error, the user is identical to the one before the call. *)
Theorem failed_update_leaves_user (env : Env) (o : operation)
        (u : db.User) (w : World) (e : errors.exn) :
  fst (on u w (exec env o)) = Raised e ->
  user_after (on u w (exec env o)) = u.
Proof.
  intros H. unfold user_after.
  rewrite (raised_untouched env o u w e H). reflexivity.
Qed.

Lemma failed_update_leaves_user_witness :
  fst (on alice sample_world (exec sample_env (UpdatePassword (str_of "abc"))))
    = Raised errors.ValidationError /\
  user_after
    (on alice sample_world (exec sample_env (UpdatePassword (str_of "abc"))))
    = alice.
Proof.
  split.
  - reflexivity.
  - apply (failed_update_leaves_user sample_env
             (UpdatePassword (str_of "abc")) alice sample_world
             errors.ValidationError). reflexivity.
Defined.

(** ** Email *)

(** C3: with an email validator that accepts the absent email,
    [update_email] called with the empty string, with three blanks, or with
    any string made of whitespace only, returns without error and leaves
    the user's email absent ([None]), the other fields as they were. *)
Theorem update_email_blank (env : Env) (u : db.User) (w : World)
        (email : str) :
  accepts_absent_email (is_valid_email env) ->
  email = [] \/ email = str_of "   " \/ forallb is_space email = true ->
  let res := on u w (update_email env email) in
  fst res = Returned tt /\
  db.email (user_after res) = None /\
  snd res = mkMachine (set_email None u) w.
Proof.
  intros Hnone Hblank res.
  assert (Hs : strip email = []).
  { destruct Hblank as [->|[->|H]];
      [reflexivity | reflexivity | apply strip_spaces; exact H]. }
  subst res. rewrite update_email_eq, Hs. simpl.
  unfold accepts_absent_email in Hnone. rewrite Hnone.
  repeat split.
Qed.

Lemma update_email_blank_witness :
  accepts_absent_email (is_valid_email sample_env) /\
  (db.email (user_after (on alice sample_world
                           (update_email sample_env []))) = None /\
   db.email (user_after (on alice sample_world
                           (update_email sample_env (str_of "   "))))
     = None).
Proof.
  assert (H : accepts_absent_email (is_valid_email sample_env))
    by reflexivity.
  split; [exact H|]. split.
  - exact (proj1 (proj2 (update_email_blank sample_env alice sample_world
                           [] H (or_introl eq_refl)))).
  - exact (proj1 (proj2 (update_email_blank sample_env alice sample_world
                           (str_of "   ") H
                           (or_intror (or_introl eq_refl))))).
Defined.

(** C8: if the name pattern matches [alice], the password pattern matches
    [ValidP@ss1] and the email validator accepts [a@example.com], then
    [create_user] returns a user whose name is [alice], whose email is
    [a@example.com], whose access rank is the configured default rank and
    whose creation time is set (to the clock's reading). *)
Theorem create_user_alice (env : Env) (w : World) :
  re_match (user_name_regex (service env)) (str_of "alice") = true ->
  re_match (password_regex (service env)) (str_of "ValidP@ss1") = true ->
  is_valid_email env (Some (str_of "a@example.com")) = true ->
  exists user w',
    create_user env (str_of "alice") (str_of "ValidP@ss1")
                (str_of "a@example.com") w = (Returned user, w') /\
    db.name user = Some (str_of "alice") /\
    db.email user = Some (str_of "a@example.com") /\
    db.access_rank user = Some (default_user_rank (service env)) /\
    db.creation_time user = Some (clock w (asked w)) /\
    db.creation_time user <> None.
Proof.
  intros Hn Hp He. rewrite create_user_eq.
  replace (strip (str_of "alice")) with (str_of "alice") by reflexivity.
  replace (or_None (strip (str_of "a@example.com")))
    with (Some (str_of "a@example.com")) by reflexivity.
  rewrite Hn, Hp. cbv zeta. rewrite He.
  eexists; eexists. split; [reflexivity|]. simpl.
  repeat split. discriminate.
Qed.

Lemma create_user_alice_witness :
  exists user w',
    create_user sample_env (str_of "alice") (str_of "ValidP@ss1")
                (str_of "a@example.com") sample_world = (Returned user, w') /\
    db.name user = Some (str_of "alice") /\
    db.email user = Some (str_of "a@example.com") /\
    db.access_rank user = Some (str_of "regular_user") /\
    db.creation_time user = Some 1460000000%Z /\
    db.creation_time user <> None.
Proof.
  apply (create_user_alice sample_env sample_world); reflexivity.
Defined.

(** ** Frame *)

(** C10: an operation that returns has changed none of the fields outside
    the ones it is meant to write: [update_name] only [name],
    [update_email] only [email], [update_rank] only [access_rank],
    [bump_login_time] only [last_login_time], [update_password] and
    [reset_password] only [password_salt] and [password_hash]. *)
Theorem writes_only_designated (env : Env) (o : operation) (u : db.User)
        (w : World) (f : field) :
  fst (on u w (exec env o)) = Returned tt ->
  ~ In f (designated o) ->
  same_at f u (user_after (on u w (exec env o))).
Proof.
  unfold user_after.
  destruct o as [n|p|m|rank actor| |]; simpl exec; simpl designated.
  - rewrite update_name_eq. destruct (re_match _ _); [|discriminate].
    intros _ Hf. destruct f; simpl; try reflexivity. exfalso; apply Hf.
    simpl; auto.
  - rewrite update_password_eq. destruct (re_match _ _); [|discriminate].
    intros _ Hf. destruct f; simpl; try reflexivity; exfalso; apply Hf;
      simpl; auto.
  - rewrite update_email_eq. destruct (is_valid_email _ _); [|discriminate].
    intros _ Hf. destruct f; simpl; try reflexivity. exfalso; apply Hf.
    simpl; auto.
  - rewrite update_rank_eq. cbv zeta.
    destruct (py_in _ _); [|discriminate].
    destruct (py_index _ (db.access_rank actor)); [|discriminate].
    destruct (py_index _ (Some (strip rank))); [|discriminate].
    destruct (_ <? _); [discriminate|].
    intros _ Hf. destruct f; simpl; try reflexivity. exfalso; apply Hf.
    simpl; auto.
  - intros _ Hf. destruct f; simpl; try reflexivity. exfalso; apply Hf.
    simpl; auto.
  - intros _ Hf. destruct f; simpl; try reflexivity; exfalso; apply Hf;
      simpl; auto.
Qed.

Lemma writes_only_designated_witness :
  fst (on alice sample_world (exec sample_env ResetPassword)) = Returned tt /\
  ~ In f_email (designated ResetPassword) /\
  db.email (user_after (on alice sample_world (exec sample_env ResetPassword)))
    = db.email alice.
Proof.
  assert (H : ~ In f_email (designated ResetPassword)).
  { simpl. intros [E|[E|[]]]; discriminate. }
  split; [reflexivity|]. split; [exact H|].
  exact (writes_only_designated sample_env ResetPassword alice sample_world
           f_email eq_refl H).
Defined.

Lemma exec_reset_password (env : Env) (u : db.User) (w : World) :
  snd (on u w (exec env ResetPassword)) = snd (on u w (reset_password env)).
Proof. reflexivity. Qed.

(** ** The rank invariant *)

Lemma set_other_keeps_rank (env : Env) (u u' : db.User) :
  db.access_rank u' = db.access_rank u ->
  rank_listed env u -> rank_listed env u'.
Proof.
  intros E (a & Ea & Ha). exists a. split; [congruence | assumption].
Qed.

Lemma other_operations_keep_rank (env : Env) (o : operation)
      (u : db.User) (w : World) :
  match o with UpdateRank _ _ => False | _ => True end ->
  db.access_rank (user_after (on u w (exec env o))) = db.access_rank u.
Proof.
  unfold user_after. destruct o as [n|p|m|rank actor| |]; simpl exec;
    intros H; try destruct H.
  - rewrite update_name_eq. destruct (re_match _ _); reflexivity.
  - rewrite update_password_eq. destruct (re_match _ _); reflexivity.
  - rewrite update_email_eq. destruct (is_valid_email _ _); reflexivity.
  - reflexivity.
  - reflexivity.
Qed.

(** C7, as stated, fails: with a configuration whose default rank is not
    in its rank list, [create_user] returns a user whose access rank is
    not a member of the configured list. *)
Lemma create_user_stray_default :
  exists user w',
    create_user stray_env (str_of "alice") (str_of "ValidP@ss1")
                (str_of "a@example.com") sample_world = (Returned user, w') /\
    db.access_rank user = Some (str_of "member") /\
    ~ rank_listed stray_env user.
Proof.
  eexists; eexists. split; [reflexivity|]. split; [reflexivity|].
  intros (a & Ea & Ha). simpl in Ea. injection Ea as <-.
  apply py_in_In in Ha. discriminate.
Qed.

(** C7 (amended): [update_rank], when it returns, leaves the user with an
    access rank that is a member of the configured rank list, since it
    stores only a rank it has checked; [create_user] stores the configured
    default rank, which is a member of the list whenever the
    configuration lists its default rank; and every operation on a user
    whose rank is listed leaves it listed. *)
Theorem access_rank_stays_listed (env : Env) :
  (In (default_user_rank (service env)) (user_ranks (service env)) ->
   forall name password email w user w',
     create_user env name password email w = (Returned user, w') ->
     rank_listed env user) /\
  (forall u w rank actor,
     fst (on u w (update_rank env rank actor)) = Returned tt ->
     rank_listed env (user_after (on u w (update_rank env rank actor)))) /\
  (forall o u w,
     rank_listed env u ->
     rank_listed env (user_after (on u w (exec env o)))).
Proof.
  assert (Hrank : forall u w rank actor,
     fst (on u w (update_rank env rank actor)) = Returned tt ->
     rank_listed env (user_after (on u w (update_rank env rank actor)))).
  { intros u w rank actor. unfold user_after.
    rewrite update_rank_eq. cbv zeta.
    destruct (py_in _ _) eqn:Hin; [|discriminate].
    destruct (py_index _ (db.access_rank actor)); [|discriminate].
    destruct (py_index _ (Some (strip rank))); [|discriminate].
    destruct (_ <? _); [discriminate|].
    intros _. exists (strip rank). split; [reflexivity|].
    apply py_in_In. exact Hin. }
  split; [|split].
  - intros Hdef name password email w user w'. rewrite create_user_eq.
    destruct (re_match (user_name_regex _) _); [|discriminate].
    destruct (re_match (password_regex _) _); [|discriminate].
    cbv zeta. destruct (is_valid_email _ _); [|discriminate].
    intros [= <- _]. exists (default_user_rank (service env)).
    split; [reflexivity | exact Hdef].
  - exact Hrank.
  - intros o u w Hu.
    destruct o as [n|p|m|rank actor| |];
      try (apply (set_other_keeps_rank env u); [|exact Hu];
           apply other_operations_keep_rank; simpl; exact I).
    destruct (fst (on u w (exec env (UpdateRank rank actor))))
      as [[]|e] eqn:E.
    + apply Hrank. exact E.
    + unfold user_after. rewrite (raised_untouched env _ u w e E). exact Hu.
Qed.

Lemma access_rank_stays_listed_witness :
  In (default_user_rank (service sample_env))
     (user_ranks (service sample_env)) /\
  exists user,
    fst (create_user sample_env (str_of "alice") (str_of "ValidP@ss1")
           (str_of "a@example.com") sample_world) = Returned user /\
    rank_listed sample_env user.
Proof.
  assert (H : In (default_user_rank (service sample_env))
                 (user_ranks (service sample_env)))
    by (apply py_in_In; reflexivity).
  split; [exact H|].
  eexists. split; [reflexivity|].
  exact (proj1 (access_rank_stays_listed sample_env) H
           (str_of "alice") (str_of "ValidP@ss1") (str_of "a@example.com")
           sample_world _ _ eq_refl).
Defined.

(** ** Credentials *)

(** C4, as stated, fails: when the random source hands out the value it
    handed out before, [update_password] with the password already in use
    stores the very salt and hash the user had; and [reset_password] then
    stores, as the salt, a value equal to the plaintext it returns. *)
Lemma credentials_can_repeat :
  re_match (password_regex (service sample_env)) (str_of "ValidP@ss1")
    = true /\
  credentials
    (user_after (on alice stuck_world
                   (update_password sample_env (str_of "ValidP@ss1"))))
    = credentials alice /\
  exists plain,
    fst (on alice stuck_world (reset_password sample_env)) = Returned plain /\
    stored_in plain
      (user_after (on alice stuck_world (reset_password sample_env))).
Proof.
  split; [reflexivity|]. split; [reflexivity|].
  eexists. split; [reflexivity|].
  right; right; left. reflexivity.
Qed.

(** C4 (amended): for a password that the configured password pattern
    matches, [update_password] returns, and the stored hash is the
    credential helper's hash of the newly stored salt and that password;
    the new salt and hash differ from the previous pair whenever the
    generated salt differs from the previous salt.  [reset_password]
    returns a plaintext such that hashing the newly stored salt with it
    gives the newly stored hash; it assigns nothing but the salt, a value
    generated apart from the plaintext, and the hash, so the plaintext is
    the value of no text field afterwards unless that salt or that hash
    equals it, or the name, email or access rank already did. *)
Theorem credentials_verify (env : Env) (u : db.User) (w : World)
        (password : str) :
  (re_match (password_regex (service env)) password = true ->
   let res := on u w (update_password env password) in
   let salt := rng w (drawn w) in
   fst res = Returned tt /\
   db.password_salt (user_after res) = Some salt /\
   db.password_hash (user_after res)
     = Some (get_password_hash env salt password) /\
   (db.password_salt u <> Some salt ->
    credentials (user_after res) <> credentials u)) /\
  (let res := on u w (reset_password env) in
   let plain := rng w (drawn w) in
   let salt := rng w (S (drawn w)) in
   fst res = Returned plain /\
   db.password_salt (user_after res) = Some salt /\
   db.password_hash (user_after res)
     = Some (get_password_hash env salt plain) /\
   (plain <> salt ->
    plain <> get_password_hash env salt plain ->
    ~ (db.name u = Some plain \/ db.email u = Some plain \/
       db.access_rank u = Some plain) ->
    ~ stored_in plain (user_after res))).
Proof.
  split.
  - intros Hm res salt. subst res.
    rewrite update_password_eq, Hm. cbv zeta. unfold user_after. simpl.
    repeat split. fold salt. unfold credentials. simpl.
    intros Hne E. apply Hne. injection E as E1 _. symmetry. exact E1.
  - cbv zeta. rewrite reset_password_eq. unfold user_after. simpl.
    repeat split.
    intros Hs Hh Hold [H|[H|[H|[H|H]]]]; simpl in H.
    + apply Hold. auto.
    + injection H as H. apply Hh. symmetry. exact H.
    + injection H as H. apply Hs. symmetry. exact H.
    + apply Hold. auto.
    + apply Hold. auto.
Qed.

Lemma credentials_verify_witness :
  re_match (password_regex (service sample_env)) (str_of "N3wP@ssword")
    = true /\
  db.password_hash
    (user_after (on alice sample_world
                   (update_password sample_env (str_of "N3wP@ssword"))))
  = Some (get_password_hash sample_env (rng sample_world 0)
            (str_of "N3wP@ssword")).
Proof.
  split; [reflexivity|].
  exact (proj1 (proj2 (proj2
           (proj1 (credentials_verify sample_env alice sample_world
                     (str_of "N3wP@ssword")) eq_refl)))).
Defined.

(** ** Prefix matching *)

(** C9, as stated, fails.  [update_name] matches the trimmed name, not
    the name it was given: the pattern [ a] does not end with [$] and
    matches the whole of the input [ a], yet the call raises
    [ValidationError], because the trimmed name [a] has lost the blank.
    And a pattern need not end with [$] to depend on what follows the
    prefix: [a$|b] and [a(?!b)] both match the prefix [a] of [ab] taken
    alone, yet [update_password] refuses [ab]. *)
Lemma prefix_match_can_be_refused :
  (ends_with_eol (user_name_regex (service blank_env)) = false /\
   re_fullmatch (user_name_regex (service blank_env)) (str_of " a") = true /\
   fst (on alice sample_world (update_name blank_env (str_of " a")))
     = Raised errors.ValidationError) /\
  (ends_with_eol (password_regex (service branch_env)) = false /\
   re_fullmatch (password_regex (service branch_env)) (str_of "a") = true /\
   fst (on alice sample_world
          (update_password branch_env (str_of "a" ++ str_of "b")))
     = Raised errors.ValidationError) /\
  (ends_with_eol (password_regex (service lookahead_env)) = false /\
   re_fullmatch (password_regex (service lookahead_env)) (str_of "a")
     = true /\
   fst (on alice sample_world
          (update_password lookahead_env (str_of "a" ++ str_of "b")))
     = Raised errors.ValidationError).
Proof.
  repeat split.
Qed.

(** C9 (amended): validation is anchored only at the start of the string.
    When the configured pattern is written with literals, [.], character
    classes, [^], concatenation, alternation and repetition only (no [$]
    and no look-ahead), [update_password] accepts every password that
    begins, and [update_name] every name whose trimmed form begins, with
    a prefix [p] that the pattern matches as a whole: every [p ++ q] is
    accepted, also when the pattern does not match [p ++ q] as a whole. *)
Theorem prefix_match_is_accepted (env : Env) (u : db.User) (w : World)
        (p q : str) :
  (plain (password_regex (service env)) = true ->
   re_fullmatch (password_regex (service env)) p = true ->
   fst (on u w (update_password env (p ++ q))) = Returned tt) /\
  (plain (user_name_regex (service env)) = true ->
   re_fullmatch (user_name_regex (service env)) p = true ->
   forall name,
     strip name = p ++ q ->
     on u w (update_name env name)
     = (Returned tt, mkMachine (set_name (Some (p ++ q)) u) w)).
Proof.
  split.
  - intros Hfree Hp.
    rewrite update_password_eq, (re_match_prefix _ p q Hfree Hp).
    reflexivity.
  - intros Hfree Hp name Hs.
    rewrite update_name_eq, Hs, (re_match_prefix _ p q Hfree Hp).
    reflexivity.
Qed.

Lemma prefix_match_is_accepted_witness :
  plain (user_name_regex (service loose_env)) = true /\
  re_fullmatch (user_name_regex (service loose_env)) (str_of "bob") = true /\
  re_fullmatch (user_name_regex (service loose_env)) (str_of "bob!!")
    = false /\
  on alice sample_world (update_name loose_env (str_of " bob!! "))
  = (Returned tt,
     mkMachine (set_name (Some (str_of "bob" ++ str_of "!!")) alice)
               sample_world).
Proof.
  split; [reflexivity|]. split; [reflexivity|]. split; [reflexivity|].
  exact (proj2 (prefix_match_is_accepted loose_env alice sample_world
                  (str_of "bob") (str_of "!!"))
           eq_refl eq_refl (str_of " bob!! ") eq_refl).
Defined.

(* ===================================================================== *)
(** * Further properties of the module *)
(* ===================================================================== *)

(** ** Trimming *)

Lemma lstrip_head (s : str) (c : char) (t : str) :
  lstrip s = c :: t -> is_space c = false.
Proof.
  induction s as [|x s IH]; simpl; [discriminate|].
  destruct (is_space x) eqn:E; [exact IH|].
  intros [= <- _]. exact E.
Qed.

Lemma lstrip_nil_spaces (s : str) :
  lstrip s = [] -> forallb is_space s = true.
Proof.
  induction s as [|x s IH]; simpl; [reflexivity|].
  destruct (is_space x); [exact IH | discriminate].
Qed.

Lemma lstrip_idem (s : str) : lstrip (lstrip s) = lstrip s.
Proof.
  destruct (lstrip s) as [|c t] eqn:E; [reflexivity|].
  apply lstrip_keeps. exact (lstrip_head s c t E).
Qed.

Lemma lstrip_spaces_app (a s : str) :
  forallb is_space a = true -> lstrip (a ++ s) = lstrip s.
Proof.
  induction a as [|x a IH]; simpl; [reflexivity|].
  rewrite andb_true_iff. intros [-> H]. auto.
Qed.

Lemma lstrip_app_nonspace (a : str) (c : char) (b : str) :
  is_space c = false -> lstrip (a ++ c :: b) = lstrip a ++ c :: b.
Proof.
  intros Hc. induction a as [|x a IH]; simpl.
  - rewrite Hc. reflexivity.
  - destruct (is_space x); [exact IH | reflexivity].
Qed.

Lemma lstrip_app_r (s b : str) :
  lstrip s <> [] -> lstrip (s ++ b) = lstrip s ++ b.
Proof.
  induction s as [|x s IH]; simpl; [congruence|].
  destruct (is_space x); [exact IH | reflexivity].
Qed.

Lemma forallb_rev (f : char -> bool) (s : str) :
  forallb f (rev s) = forallb f s.
Proof.
  induction s as [|x s IH]; simpl; [reflexivity|].
  rewrite forallb_app, IH. simpl. rewrite andb_true_r. apply andb_comm.
Qed.

Lemma rstrip_cons_nonspace (c : char) (t : str) :
  is_space c = false -> rstrip (c :: t) = c :: rstrip t.
Proof.
  intros Hc. unfold rstrip. simpl.
  rewrite (lstrip_app_nonspace (rev t) c [] Hc), rev_app_distr. reflexivity.
Qed.

Lemma rstrip_idem (s : str) : rstrip (rstrip s) = rstrip s.
Proof.
  unfold rstrip. rewrite rev_involutive, lstrip_idem. reflexivity.
Qed.

Lemma rstrip_app_spaces (s b : str) :
  forallb is_space b = true -> rstrip (s ++ b) = rstrip s.
Proof.
  intros Hb. unfold rstrip. rewrite rev_app_distr, lstrip_spaces_app;
    [reflexivity | rewrite forallb_rev; exact Hb].
Qed.

Lemma rstrip_last (s a : str) (c : char) :
  rstrip s = a ++ [c] -> is_space c = false.
Proof.
  unfold rstrip. intros H.
  apply (f_equal (@rev char)) in H.
  rewrite rev_involutive, rev_app_distr in H. simpl in H.
  exact (lstrip_head _ _ _ H).
Qed.

(** [strip] is idempotent. *)
Lemma strip_idem (s : str) : strip (strip s) = strip s.
Proof.
  unfold strip. destruct (lstrip s) as [|c t] eqn:E; [reflexivity|].
  pose proof (lstrip_head s c t E) as Hc.
  rewrite (rstrip_cons_nonspace c t Hc), (lstrip_keeps c _ Hc),
    (rstrip_cons_nonspace c _ Hc), rstrip_idem.
  reflexivity.
Qed.

(** What [strip] returns neither begins nor ends with whitespace. *)
Lemma strip_ends (s : str) :
  (forall c t, strip s = c :: t -> is_space c = false) /\
  (forall a c, strip s = a ++ [c] -> is_space c = false).
Proof.
  split.
  - intros c t H. rewrite <- strip_idem in H. unfold strip at 1 in H.
    destruct (lstrip (strip s)) as [|x l] eqn:E.
    + discriminate.
    + pose proof (lstrip_head _ _ _ E) as Hx.
      rewrite (rstrip_cons_nonspace x l Hx) in H. injection H as <- _.
      exact Hx.
  - intros a c H. exact (rstrip_last _ _ _ H).
Qed.

(** Whitespace around a string does not change what [strip] returns. *)
Lemma strip_padding (a s b : str) :
  forallb is_space a = true -> forallb is_space b = true ->
  strip (a ++ s ++ b) = strip s.
Proof.
  intros Ha Hb. unfold strip. rewrite (lstrip_spaces_app a _ Ha).
  destruct (lstrip s) as [|c t] eqn:E.
  - apply lstrip_nil_spaces in E.
    rewrite lstrip_spaces; [reflexivity|].
    rewrite forallb_app, E, Hb. reflexivity.
  - rewrite lstrip_app_r, E; [|rewrite E; discriminate].
    apply rstrip_app_spaces. exact Hb.
Qed.

(** ** Patterns closed by [$] *)

Lemma re_match_iff (r : regex) (s : str) :
  re_match r s = true <-> exists c, In c (run r (start s)).
Proof.
  unfold re_match. destruct (run r (start s)) as [|c l]; simpl.
  - split; [discriminate | intros [c []]].
  - split; [eauto | reflexivity].
Qed.

Lemma re_fullmatch_iff (r : regex) (s : str) :
  re_fullmatch r s = true <->
  exists c, In c (run r (start s)) /\ rest c = [].
Proof.
  unfold re_fullmatch. rewrite existsb_exists. split.
  - intros (c & Hc & E). exists c. split; [exact Hc|].
    destruct (rest c); [reflexivity | discriminate].
  - intros (c & Hc & E). exists c. split; [exact Hc|]. rewrite E.
    reflexivity.
Qed.

Lemma ext_inj (q : str) (c c' : cursor) : ext q c = ext q c' -> c = c'.
Proof.
  destruct c as [n a], c' as [m b]. unfold ext. simpl.
  intros [= -> H]. apply app_inv_tail in H. subst. reflexivity.
Qed.

(** A cursor that lies before a cursor of the extended string is itself
    a cursor of the extended string. *)
Lemma ext_before (q : str) (c1 c0' : cursor) :
  (exists mid, rest c1 = mid ++ rest (ext q c0')) ->
  exists c1', c1 = ext q c1' /\
              List.length (rest c0') <= List.length (rest c1').
Proof.
  intros (mid & E). exists (mkCursor (pos c1) (mid ++ rest c0')). split.
  - destruct c1 as [n a]. unfold ext. simpl in *.
    rewrite E, app_assoc. reflexivity.
  - simpl. rewrite length_app. lia.
Qed.

Lemma eat_cut (p : char -> bool) (q : str) (c0 c0' : cursor) :
  In (ext q c0') (eat p (ext q c0)) -> In c0' (eat p c0).
Proof.
  destruct c0 as [n a], c0' as [m b]. unfold eat, ext. simpl.
  destruct a as [|x t]; simpl.
  - destruct q as [|y q']; simpl; [tauto|].
    destruct (p y); simpl; [|tauto].
    intros [H|[]]. injection H as _ H.
    apply (f_equal (@List.length char)) in H.
    rewrite length_app in H. simpl in H. lia.
  - destruct (p x); simpl; [|tauto].
    intros [H|[]]. injection H as Hn H. apply app_inv_tail in H.
    subst. left. reflexivity.
Qed.

Lemma star_cut (step : cursor -> list cursor) (q : str) :
  (forall c c', In c' (step c) ->
     exists mid, rest c = mid ++ rest c' /\
                 pos c' = pos c + List.length mid) ->
  (forall c0 c0', In (ext q c0') (step (ext q c0)) -> In c0' (step c0)) ->
  forall n m c0 c0',
    List.length (rest c0) < m ->
    In (ext q c0') (star step n (ext q c0)) -> In c0' (star step m c0).
Proof.
  intros Hadv Hcut n.
  induction n as [|n IH]; intros m c0 c0' Hm; (destruct m as [|m]; [lia|]).
  - rewrite star_base. intros H. apply ext_inj in H. subst.
    apply star_unfold. left. reflexivity.
  - rewrite !star_unfold. intros [H|(c1 & H1 & Hlt & H2)].
    + apply ext_inj in H. left. exact H.
    + destruct (star_advances step Hadv n c1 (ext q c0') H2) as (mid & E & _).
      destruct (ext_before q c1 c0' (ex_intro _ mid E)) as (c1' & -> & _).
      right. exists c1'. split; [apply Hcut; exact H1|].
      simpl in Hlt. rewrite !length_app in Hlt.
      split; [lia|]. apply IH; [lia | exact H2].
Qed.

(** A match of a plain pattern that ends before the last [q] code
    points is a match in the string without them. *)
Lemma run_cut (r : regex) (q : str) :
  plain r = true ->
  forall c0 c0', In (ext q c0') (run r (ext q c0)) -> In c0' (run r c0).
Proof.
  induction r as [|a| |neg rs| | |r1 IH1 r2 IH2|r1 IH1 r2 IH2|r1 IH1|ng r0 IH0];
    simpl; intros Hfree c0 c0'.
  - intros [H|[]]. apply ext_inj in H. left. exact H.
  - apply eat_cut.
  - apply eat_cut.
  - apply eat_cut.
  - destruct (pos c0 =? 0); simpl; [|tauto].
    intros [H|[]]. apply ext_inj in H. left. exact H.
  - discriminate.
  - apply andb_true_iff in Hfree. destruct Hfree as [F1 F2].
    rewrite !in_flat_map. intros (c1 & H1 & H2).
    destruct (run_advances r2 c1 (ext q c0') H2) as (mid & E & _).
    destruct (ext_before q c1 c0' (ex_intro _ mid E)) as (c1' & -> & _).
    exists c1'. split; [apply IH1 | apply IH2]; assumption.
  - apply andb_true_iff in Hfree. destruct Hfree as [F1 F2].
    rewrite !in_app_iff. intros [H|H]; [left; apply IH1 | right; apply IH2];
      assumption.
  - intros H.
    exact (star_cut (run r1) q (run_advances r1) (IH1 Hfree)
             (S (List.length (rest (ext q c0)))) (S (List.length (rest c0)))
             c0 c0' (Nat.lt_succ_diag_r _) H).
  - discriminate.
Qed.

Lemma final_eol_sound (pr : regex) :
  forall r, without_final_eol pr = Some r ->
  forall c c2, In c2 (run pr c) ->
    In c2 (run r c) /\ (rest c2 = [] \/ rest c2 = [10%N]).
Proof.
  induction pr as [|a| |neg rs| | |r1 IH1 r2 IH2|r1 IH1 r2 IH2|r1 IH1|ng r0 IH0];
    simpl; intros r Hr; try discriminate.
  - injection Hr as <-. intros c c2. simpl.
    destruct (rest c) as [|x [|y t]] eqn:E; simpl; try tauto.
    + intros [<-|[]]. auto.
    + destruct (N.eqb_spec x 10); simpl; [|tauto].
      intros [<-|[]]. subst. auto.
  - destruct (without_final_eol r2) as [r2'|] eqn:E2; [|discriminate].
    injection Hr as <-. intros c c2. simpl. rewrite !in_flat_map.
    intros (c1 & H1 & H2). destruct (IH2 r2' eq_refl c1 c2 H2) as [H3 H4].
    split; [exists c1; auto | exact H4].
Qed.

Lemma final_eol_complete (pr : regex) :
  forall r, without_final_eol pr = Some r ->
  forall c c2, In c2 (run r c) ->
    rest c2 = [] \/ rest c2 = [10%N] -> In c2 (run pr c).
Proof.
  induction pr as [|a| |neg rs| | |r1 IH1 r2 IH2|r1 IH1 r2 IH2|r1 IH1|ng r0 IH0];
    simpl; intros r Hr; try discriminate.
  - injection Hr as <-. intros c c2. simpl. intros [<-|[]] [E|E];
      rewrite E; simpl; auto.
  - destruct (without_final_eol r2) as [r2'|] eqn:E2; [|discriminate].
    injection Hr as <-. intros c c2. simpl. rewrite !in_flat_map.
    intros (c1 & H1 & H2) Hend. exists c1. split; [exact H1|].
    exact (IH2 r2' eq_refl c1 c2 H2 Hend).
Qed.

(** [re.match] with a pattern [r$], [r] plain: the string is
    accepted exactly when [r] matches all of it, or all of it but one
    final newline. *)
Lemma re_match_end_anchored (pr r : regex) (s : str) :
  without_final_eol pr = Some r -> plain r = true ->
  (re_match pr s = true <->
   re_fullmatch r s = true \/
   exists s', s = s' ++ [10%N] /\ re_fullmatch r s' = true).
Proof.
  intros Hr Hfree. rewrite re_match_iff. split.
  - intros (c2 & H2).
    destruct (final_eol_sound pr r Hr _ _ H2) as [H3 [E|E]].
    + left. apply re_fullmatch_iff. eauto.
    + right. destruct (run_advances r _ _ H3) as (mid & Em & _).
      simpl in Em. rewrite E in Em. exists mid. split; [exact Em|].
      apply re_fullmatch_iff. exists (mkCursor (pos c2) []). split; [|auto].
      apply (run_cut r [10%N] Hfree). subst s.
      replace (ext [10%N] (mkCursor (pos c2) [])) with c2
        by (destruct c2; unfold ext; simpl in *; subst; reflexivity).
      exact H3.
  - intros [H|(s' & -> & H)]; apply re_fullmatch_iff in H;
      destruct H as (c & Hc & E).
    + exists c. apply (final_eol_complete pr r Hr); auto.
    + exists (ext [10%N] c).
      apply (final_eol_complete pr r Hr).
      * exact (run_ext r [10%N] Hfree (start s') c Hc).
      * simpl. rewrite E. auto.
Qed.

(** ** Creation, again *)

Lemma or_None_nonempty (s : str) : or_None s <> Some [].
Proof. destruct s; discriminate. Qed.

Lemma or_None_Some (s t : str) : or_None s = Some t -> s = t.
Proof. destruct s; [discriminate | intros [= <-]; reflexivity]. Qed.

(** [create_user] returns a user exactly when the trimmed name passes
    the name pattern, the password as given passes the password pattern
    and the trimmed email (absent when empty) passes the validator. *)
Theorem create_user_succeeds_iff (env : Env) (name password email : str)
        (w : World) :
  (exists user w',
     create_user env name password email w = (Returned user, w')) <->
  re_match (user_name_regex (service env)) (strip name) = true /\
  re_match (password_regex (service env)) password = true /\
  is_valid_email env (or_None (strip email)) = true.
Proof.
  rewrite create_user_eq.
  destruct (re_match (user_name_regex _) _).
  - destruct (re_match (password_regex _) _).
    + cbv zeta. destruct (is_valid_email _ _).
      * split; [auto | intros _; eauto].
      * split; [intros (x & y & H); discriminate | intros (_ & _ & H);
                                                   discriminate].
    + split; [intros (x & y & H); discriminate | intros (_ & H & _);
                                                 discriminate].
  - split; [intros (x & y & H); discriminate | intros (H & _); discriminate].
Qed.

(** A user that [create_user] returns has a trimmed name that the name
    pattern matches, an email that is absent or a non-empty trimmed
    string the validator accepts, a hash that is the credential helper's
    hash of the stored salt and the given password, no login time yet and
    the gravatar avatar style. *)
Theorem create_user_establishes_invariants (env : Env)
        (name password email : str) (w w' : World) (user : db.User) :
  create_user env name password email w = (Returned user, w') ->
  (exists n, db.name user = Some n /\ trimmed n /\
             re_match (user_name_regex (service env)) n = true) /\
  (is_valid_email env (db.email user) = true /\
   db.email user <> Some [] /\
   forall m, db.email user = Some m -> trimmed m) /\
  (exists salt, db.password_salt user = Some salt /\
                db.password_hash user
                = Some (get_password_hash env salt password)) /\
  db.last_login_time user = None /\
  db.avatar_style user = Some db.AVATAR_GRAVATAR.
Proof.
  rewrite create_user_eq.
  destruct (re_match (user_name_regex _) _) eqn:Hn; [|discriminate].
  destruct (re_match (password_regex _) _) eqn:Hp; [|discriminate].
  cbv zeta. destruct (is_valid_email _ _) eqn:He; [|discriminate].
  intros [= <- _]. simpl. repeat split.
  - exists (strip name). repeat split; [apply strip_idem | exact Hn].
  - exact He.
  - apply or_None_nonempty.
  - intros m Hm. apply or_None_Some in Hm. subst m. apply strip_idem.
  - eexists. split; reflexivity.
Qed.

Lemma create_user_establishes_invariants_witness :
  exists user,
    fst (create_user sample_env (str_of "  alice ") (str_of "ValidP@ss1")
           (str_of " a@example.com") sample_world) = Returned user /\
    (exists n, db.name user = Some n /\ trimmed n /\
               re_match (user_name_regex (service sample_env)) n = true).
Proof.
  eexists. split; [reflexivity|].
  exact (proj1 (create_user_establishes_invariants sample_env
                  (str_of "  alice ") (str_of "ValidP@ss1")
                  (str_of " a@example.com") sample_world _ _ eq_refl)).
Defined.

(** ** Names and emails *)

(** The name that a successful [update_name] stores is trimmed and is
    matched by the name pattern, and calling [update_name] again with the
    stored name returns and changes nothing. *)
Theorem update_name_stores_trimmed (env : Env) (u : db.User) (w : World)
        (name : str) :
  fst (on u w (update_name env name)) = Returned tt ->
  let u' := user_after (on u w (update_name env name)) in
  exists n,
    db.name u' = Some n /\ trimmed n /\
    re_match (user_name_regex (service env)) n = true /\
    on u' w (update_name env n) = (Returned tt, mkMachine u' w).
Proof.
  unfold user_after. rewrite update_name_eq.
  destruct (re_match _ _) eqn:Hn; [|discriminate].
  intros _. simpl. exists (strip name).
  split; [reflexivity|]. split; [apply strip_idem|]. split; [exact Hn|].
  rewrite update_name_eq, strip_idem, Hn. reflexivity.
Qed.

Lemma update_name_stores_trimmed_witness :
  fst (on alice sample_world (update_name sample_env (str_of " bob ")))
    = Returned tt /\
  exists n,
    db.name (user_after
               (on alice sample_world (update_name sample_env (str_of " bob "))))
      = Some n /\ trimmed n.
Proof.
  split; [reflexivity|].
  destruct (update_name_stores_trimmed sample_env alice sample_world
              (str_of " bob ") eq_refl) as (n & H1 & H2 & _).
  exists n. split; [exact H1 | exact H2].
Defined.

(** Whitespace before and after the argument is of no consequence to
    [update_name], [update_email] and [update_rank]: the padded call and
    the plain call end in the same outcome and the same user. *)
Theorem padding_is_ignored (env : Env) (u : db.User) (w : World)
        (a s b : str) :
  forallb is_space a = true -> forallb is_space b = true ->
  on u w (update_name env (a ++ s ++ b)) = on u w (update_name env s) /\
  on u w (update_email env (a ++ s ++ b)) = on u w (update_email env s) /\
  forall actor,
    on u w (update_rank env (a ++ s ++ b) actor)
    = on u w (update_rank env s actor).
Proof.
  intros Ha Hb. split; [|split; [|intros actor]].
  - rewrite !update_name_eq, (strip_padding a s b Ha Hb). reflexivity.
  - rewrite !update_email_eq, (strip_padding a s b Ha Hb). reflexivity.
  - rewrite !update_rank_eq, (strip_padding a s b Ha Hb). reflexivity.
Qed.

Lemma padding_is_ignored_witness :
  on alice sample_world
     (update_name sample_env (str_of "  " ++ str_of "bob" ++ [9; 10]%N))
  = on alice sample_world (update_name sample_env (str_of "bob")).
Proof.
  exact (proj1 (padding_is_ignored sample_env alice sample_world
                  (str_of "  ") (str_of "bob") [9; 10]%N eq_refl eq_refl)).
Defined.

(** The email that a successful [update_email] stores is accepted by the
    validator, and it is either absent or a non-empty trimmed string:
    the empty string is never stored. *)
Theorem update_email_stores_valid (env : Env) (u : db.User) (w : World)
        (email : str) :
  fst (on u w (update_email env email)) = Returned tt ->
  let u' := user_after (on u w (update_email env email)) in
  is_valid_email env (db.email u') = true /\
  db.email u' <> Some [] /\
  forall m, db.email u' = Some m -> trimmed m /\ m <> [].
Proof.
  unfold user_after. rewrite update_email_eq.
  destruct (is_valid_email _ _) eqn:He; [|discriminate].
  intros _. simpl. split; [exact He|]. split; [apply or_None_nonempty|].
  intros m Hm. split.
  - apply or_None_Some in Hm. subst m. apply strip_idem.
  - intros ->. exact (or_None_nonempty _ Hm).
Qed.

Lemma update_email_stores_valid_witness :
  fst (on alice sample_world (update_email sample_env (str_of " b@c.org ")))
    = Returned tt /\
  is_valid_email sample_env
    (db.email (user_after
                 (on alice sample_world
                     (update_email sample_env (str_of " b@c.org ")))))
    = true.
Proof.
  split; [reflexivity|].
  exact (proj1 (update_email_stores_valid sample_env alice sample_world
                  (str_of " b@c.org ") eq_refl)).
Defined.

(** ** Ranks, again *)

Lemma update_rank_bound (env : Env) (u : db.User) (w : World) (rank : str)
      (actor : db.User) :
  fst (on u w (update_rank env rank actor)) = Returned tt ->
  exists i j,
    rank_position env actor = Some i /\
    rank_position env (user_after (on u w (update_rank env rank actor)))
      = Some j /\
    j <= i.
Proof.
  unfold user_after, rank_position. rewrite update_rank_eq. cbv zeta.
  destruct (py_in _ _); [|discriminate].
  destruct (py_index _ (db.access_rank actor)) as [i|]; [|discriminate].
  destruct (py_index _ (Some (strip rank))) as [j|] eqn:Ej; [|discriminate].
  destruct (Nat.ltb_spec i j); [discriminate|].
  intros _. exists i, j. simpl. auto.
Qed.

(** Whether [update_rank] returns or raises, and what it raises, depends
    on the requested rank and the acting user only: the user whose rank
    is changed, and so the rank that user holds, is never consulted. *)
Theorem update_rank_ignores_target (env : Env) (rank : str)
        (actor u u' : db.User) (w w' : World) :
  fst (on u w (update_rank env rank actor))
  = fst (on u' w' (update_rank env rank actor)).
Proof.
  rewrite !update_rank_eq. cbv zeta.
  destruct (py_in _ _); [|reflexivity].
  destruct (py_index _ (db.access_rank actor)); [|reflexivity].
  destruct (py_index _ (Some (strip rank))); [|reflexivity].
  destruct (_ <? _); reflexivity.
Qed.

(** When [update_rank] returns, the acting user holds a configured rank
    and the rank now stored is at that position of the list or below it:
    the call never leaves a user above the acting user. *)
Theorem update_rank_never_exceeds_actor (env : Env) (u : db.User)
        (w : World) (rank : str) (actor : db.User) :
  fst (on u w (update_rank env rank actor)) = Returned tt ->
  exists i j,
    rank_position env actor = Some i /\
    rank_position env (user_after (on u w (update_rank env rank actor)))
      = Some j /\
    j <= i.
Proof. apply update_rank_bound. Qed.

Lemma update_rank_never_exceeds_actor_witness :
  fst (on alice sample_world (update_rank sample_env (str_of "mod") admin))
    = Returned tt /\
  exists i j,
    rank_position sample_env admin = Some i /\
    rank_position sample_env
      (user_after
         (on alice sample_world (update_rank sample_env (str_of "mod") admin)))
      = Some j /\
    j <= i.
Proof.
  split; [reflexivity|].
  exact (update_rank_never_exceeds_actor sample_env alice sample_world
           (str_of "mod") admin eq_refl).
Defined.

(** Ranks are only handed down: a user who received a rank through
    [update_rank] and then acts in a second [update_rank] cannot leave
    anybody above the user who acted in the first. *)
Theorem rank_delegation_bounded (env : Env) (u v : db.User) (w w' : World)
        (r1 r2 : str) (actor : db.User) :
  fst (on u w (update_rank env r1 actor)) = Returned tt ->
  let u1 := user_after (on u w (update_rank env r1 actor)) in
  fst (on v w' (update_rank env r2 u1)) = Returned tt ->
  exists i k,
    rank_position env actor = Some i /\
    rank_position env (user_after (on v w' (update_rank env r2 u1)))
      = Some k /\
    k <= i.
Proof.
  intros H1 u1 H2.
  destruct (update_rank_bound env u w r1 actor H1) as (i & j & Ei & Ej & L1).
  destruct (update_rank_bound env v w' r2 u1 H2) as (j' & k & Ej' & Ek & L2).
  fold u1 in Ej. rewrite Ej in Ej'. injection Ej' as <-.
  exists i, k. split; [exact Ei|]. split; [exact Ek | lia].
Qed.

Lemma rank_delegation_bounded_witness :
  exists i k,
    rank_position sample_env admin = Some i /\
    rank_position sample_env
      (user_after
         (on alice sample_world
             (update_rank sample_env (str_of "power_user")
                (user_after
                   (on alice sample_world
                       (update_rank sample_env (str_of "mod") admin))))))
      = Some k /\
    k <= i.
Proof.
  exact (rank_delegation_bounded sample_env alice alice sample_world
           sample_world (str_of "mod") (str_of "power_user") admin
           eq_refl eq_refl).
Defined.

(** ** Patterns closed by [$], in the operations *)

(** With a password pattern of the form [r$], [r] written without [$]
    and without look-ahead, [update_password] accepts a password exactly when [r] matches the whole
    of it or the whole of it but one final newline: the end anchor lets
    a trailing newline through. *)
Theorem update_password_end_anchored (env : Env) (u : db.User) (w : World)
        (password : str) (r : regex) :
  without_final_eol (password_regex (service env)) = Some r ->
  plain r = true ->
  (fst (on u w (update_password env password)) = Returned tt <->
   re_fullmatch r password = true \/
   exists p, password = p ++ [10%N] /\ re_fullmatch r p = true).
Proof.
  intros Hr Hfree.
  rewrite <- (re_match_end_anchored _ r password Hr Hfree).
  rewrite update_password_eq.
  destruct (re_match _ _); simpl; split; congruence.
Qed.

Lemma update_password_end_anchored_witness :
  fst (on alice sample_world
         (update_password sample_env (str_of "ValidP@ss1" ++ [10%N])))
    = Returned tt.
Proof.
  apply (update_password_end_anchored sample_env alice sample_world
           (str_of "ValidP@ss1" ++ [10%N])
           (Cat Bol (Cat (Cat (times 5 Dot) (Star Dot)) Eps))
           eq_refl eq_refl).
  right. exists (str_of "ValidP@ss1"). split; reflexivity.
Defined.

(** With a name pattern of the form [r$], [r] written without [$] and
    without look-ahead, [update_name] accepts a name exactly when [r] matches the whole of the trimmed
    name: trimming has taken the trailing newline away. *)
Theorem update_name_end_anchored (env : Env) (u : db.User) (w : World)
        (name : str) (r : regex) :
  without_final_eol (user_name_regex (service env)) = Some r ->
  plain r = true ->
  (fst (on u w (update_name env name)) = Returned tt <->
   re_fullmatch r (strip name) = true).
Proof.
  intros Hr Hfree. rewrite update_name_eq.
  pose proof (re_match_end_anchored _ r (strip name) Hr Hfree) as H.
  destruct (re_match _ _); simpl; split.
  - intros _. destruct (proj1 H eq_refl) as [Hf|(s' & Hs & _)];
      [exact Hf|].
    pose proof (proj2 (strip_ends name) s' 10%N Hs) as Hsp. discriminate.
  - reflexivity.
  - discriminate.
  - intros Hf. pose proof (proj2 H (or_introl Hf)) as Hc. discriminate.
Qed.

Lemma update_name_end_anchored_witness :
  fst (on alice sample_world
         (update_name sample_env (str_of "bob" ++ [10%N])))
    = Returned tt.
Proof.
  apply (update_name_end_anchored sample_env alice sample_world
           (str_of "bob" ++ [10%N])
           (Cat Bol (Cat (Cat name_class (upto 31 name_class)) Eps))
           eq_refl eq_refl).
  reflexivity.
Defined.

(** ** Login time *)

(** Two calls of [bump_login_time] in a row record two successive
    readings of the clock; when the clock does not run backwards between
    them, the login time does not decrease. *)
Theorem login_time_follows_clock (u : db.User) (w : World) :
  (clock w (asked w) <= clock w (S (asked w)))%Z ->
  let m1 := snd (on u w bump_login_time) in
  let m2 := snd (bump_login_time m1) in
  exists t1 t2,
    db.last_login_time (self m1) = Some t1 /\
    db.last_login_time (self m2) = Some t2 /\
    t1 = clock w (asked w) /\ t2 = clock w (S (asked w)) /\
    (t1 <= t2)%Z.
Proof.
  intros H. simpl. eexists; eexists.
  split; [reflexivity|]. split; [reflexivity|]. auto.
Qed.

Lemma login_time_follows_clock_witness :
  exists t1 t2,
    db.last_login_time
      (self (snd (on alice sample_world bump_login_time))) = Some t1 /\
    db.last_login_time
      (self (snd (bump_login_time
                    (snd (on alice sample_world bump_login_time)))))
      = Some t2 /\
    t1 = 1460000000%Z /\ t2 = 1460000001%Z /\ (t1 <= t2)%Z.
Proof.
  apply (login_time_follows_clock alice sample_world).
  simpl. lia.
Defined.

(** ** Lookup by name *)

Lemma name_is_true (name : str) (u : db.User) :
  name_is name u = true <-> db.name u = Some name.
Proof.
  unfold name_is. destruct (db.name u) as [n|].
  - rewrite str_eqb_eq. split; [intros ->; reflexivity | intros [= ->]; auto].
  - split; discriminate.
Qed.

Lemma find_by_name (session : Session) (name : str) :
  match get_by_name session name with
  | Some u =>
      db.name u = Some name /\
      exists before after,
        session = before ++ u :: after /\
        forall v, In v before -> db.name v <> Some name
  | None => forall v, In v session -> db.name v <> Some name
  end.
Proof.
  unfold get_by_name. induction session as [|x l IH]; simpl.
  - intros v [].
  - destruct (name_is name x) eqn:E.
    + split; [apply name_is_true; exact E|].
      exists [], l. split; [reflexivity | intros v []].
    + assert (Hx : db.name x <> Some name).
      { intros H. apply name_is_true in H. congruence. }
      destruct (find (name_is name) l) as [u|].
      * destruct IH as (Hu & before & after & -> & Hb).
        split; [exact Hu|]. exists (x :: before), after.
        split; [reflexivity|].
        intros v [<-|Hv]; [exact Hx | apply Hb; exact Hv].
      * intros v [<-|Hv]; [exact Hx | apply IH; exact Hv].
Qed.


(** A user that [create_user] returned and that was put into the session
    is found under the trimmed form of the name it was created with,
    provided no other user of the session bears that name. *)
Theorem created_user_is_found (env : Env) (name password email : str)
        (w w' : World) (user : db.User) (session : Session) :
  create_user env name password email w = (Returned user, w') ->
  In user session ->
  (forall v, In v session -> db.name v = db.name user -> v = user) ->
  get_by_name session (strip name) = Some user.
Proof.
  intros Hc Hin Huniq.
  assert (Hname : db.name user = Some (strip name)).
  { revert Hc. rewrite create_user_eq.
    destruct (re_match (user_name_regex _) _); [|discriminate].
    destruct (re_match (password_regex _) _); [|discriminate].
    cbv zeta. destruct (is_valid_email _ _); [|discriminate].
    intros [= <- _]. reflexivity. }
  pose proof (find_by_name session (strip name)) as H.
  destruct (get_by_name session (strip name)) as [v|].
  - destruct H as (Hv & before & after & E & _).
    f_equal. apply Huniq; [|congruence].
    rewrite E. apply in_or_app. right. left. reflexivity.
  - exfalso. exact (H user Hin Hname).
Qed.

Lemma created_user_is_found_witness :
  exists user,
    fst (create_user sample_env (str_of " carol ") (str_of "ValidP@ss1") []
           sample_world) = Returned user /\
    get_by_name [admin; user; alice] (str_of "carol") = Some user.
Proof.
  eexists. split; [reflexivity|].
  apply (created_user_is_found sample_env (str_of " carol ")
           (str_of "ValidP@ss1") [] sample_world _ _ [admin; _; alice]
           eq_refl).
  - right. left. reflexivity.
  - intros v [<-|[<-|[<-|[]]]]; simpl; intros H;
      [discriminate | reflexivity | discriminate].
Defined.

(** The lookup does not trim: in a session whose names are all trimmed,
    as the names stored by this module are, a name with whitespace at
    either end finds nobody. *)
Theorem get_by_name_misses_untrimmed (session : Session) (name : str) :
  (forall v n, In v session -> db.name v = Some n -> trimmed n) ->
  ~ trimmed name ->
  get_by_name session name = None.
Proof.
  intros Hall Hname.
  pose proof (find_by_name session name) as H.
  destruct (get_by_name session name) as [v|]; [|reflexivity].
  destruct H as (Hv & before & after & E & _).
  exfalso. apply Hname. apply (Hall v name); [|exact Hv].
  rewrite E. apply in_or_app. right. left. reflexivity.
Qed.

Lemma get_by_name_misses_untrimmed_witness :
  get_by_name [admin; alice] (str_of "alice") = Some alice /\
  get_by_name [admin; alice] (str_of " alice") = None.
Proof.
  split; [reflexivity|].
  apply (get_by_name_misses_untrimmed [admin; alice] (str_of " alice")).
  - intros v n [<-|[<-|[]]]; simpl; intros [= <-]; reflexivity.
  - intros H. discriminate H.
Defined.
